(** * Factor analysis: a model of sklearn/decomposition/factor_analysis.py

    The estimator [FactorAnalysis] is embedded as a record (its parameters and
    its fitted attributes), its methods [fit], [transform] and
    [get_covariance] as functions that take the object, the caller's array
    and the pseudo-random generators, and return what the call leaves behind.

    Conventions of the embedding.
    - A float is a real number ([R]); [sqrt], [ln] and [PI] are those of the
      standard library.  Rounding, NaN and +infinity are outside the model;
      the only infinity kept is the [-np.inf] that [old_ll] starts from.
    - A 1-D array is a [list R]; a 2-D array is a [matrix]: its rows together
      with its number of columns, so that an array without rows still has a
      width, as [numpy] has it.
    - Calls into [scipy.linalg] and [sklearn.utils.extmath] are the fields of
      the class [LinAlg]; what the theorems need of them (the shapes they
      return) is stated as a hypothesis where it is used.
    - Elementwise operations assume that the shapes agree, as they do on
      every path of [fit]; numpy's broadcasting errors are not modelled. *)

From Stdlib Require Import String Reals List Lia Lra ZArith Bool Arith.
Import ListNotations.
Open Scope R_scope.

(** ** Arrays *)

Definition vector := list R.

Record matrix := mkMatrix { ncols : nat; rows : list vector }.

Definition nrows (M : matrix) : nat := length (rows M).

(** Every row has the width the array announces. *)
Definition wf_matrix (M : matrix) : Prop :=
  Forall (fun r => length r = ncols M) (rows M).

(** [M[i, j]] *)
Definition entry (M : matrix) (i j : nat) : R := nth j (nth i (rows M) []) 0.

(** Elementwise binary operation on two 1-D arrays of the same length. *)
Definition vmap2 (f : R -> R -> R) (u v : vector) : vector :=
  map (fun p => f (fst p) (snd p)) (combine u v).

(** [np.sum(v)] *)
Definition np_sum (v : vector) : R := fold_right Rplus 0 v.

(** [np.dot(u, v)] on 1-D arrays. *)
Definition np_dot1 (u v : vector) : R := np_sum (vmap2 Rmult u v).

(** [M op v]: the 1-D array [v] is broadcast over the rows of [M]. *)
Definition row_op (f : R -> R -> R) (M : matrix) (v : vector) : matrix :=
  mkMatrix (ncols M) (map (fun r => vmap2 f r v) (rows M)).

(** [c[:, np.newaxis] * M]: row [i] of [M] is multiplied by [c[i]]. *)
Definition scale_rows (c : vector) (M : matrix) : matrix :=
  mkMatrix (ncols M)
           (map (fun p => map (Rmult (fst p)) (snd p)) (combine c (rows M))).

(** [M ** 2] *)
Definition msquare (M : matrix) : matrix :=
  mkMatrix (ncols M) (map (map (fun x => x * x)) (rows M)).

(** [np.sum(M, axis=0)]: the sums of the columns. *)
Definition col_sum (M : matrix) : vector :=
  fold_right (vmap2 Rplus) (repeat 0 (ncols M)) (rows M).

(** [np.mean(M, axis=0)] *)
Definition np_mean (M : matrix) : vector :=
  map (fun t => t / INR (nrows M)) (col_sum M).

(** [np.var(M, axis=0)]: the mean of the squared deviations from the mean. *)
Definition np_var (M : matrix) : vector :=
  np_mean (msquare (row_op Rminus M (np_mean M))).

(** [np.maximum(v, c)] *)
Definition np_maximum (v : vector) (c : R) : vector :=
  map (fun x => Rmax x c) v.

(** [M.flat] *)
Definition flat (M : matrix) : vector := concat (rows M).

(** Column [j] of [M]. *)
Definition col (M : matrix) (j : nat) : vector :=
  map (fun r => nth j r 0) (rows M).

(** [M.T] *)
Definition np_T (M : matrix) : matrix :=
  mkMatrix (nrows M) (map (col M) (seq 0 (ncols M))).

(** [np.dot(A, B)] on 2-D arrays ([fast_dot] is the same product). *)
Definition np_dot (A B : matrix) : matrix :=
  mkMatrix (ncols B)
           (map (fun a => map (fun j => np_dot1 a (col B j)) (seq 0 (ncols B)))
                (rows A)).

(** [np.eye(k)] *)
Definition np_eye (k : nat) : matrix :=
  mkMatrix k
           (map (fun i => map (fun j => if Nat.eqb i j then 1 else 0) (seq 0 k))
                (seq 0 k)).

(** [A + B], elementwise. *)
Definition madd (A B : matrix) : matrix :=
  mkMatrix (ncols A)
           (map (fun p => vmap2 Rplus (fst p) (snd p))
                (combine (rows A) (rows B))).

(** [M.flat[::step] += v]: in row-major order the entry [(i, j)] sits at the
    flat position [i * ncols + j]; every [step]-th position receives the next
    entry of [v]. *)
Definition flat_stride_iadd (M : matrix) (step : nat) (v : vector) : matrix :=
  mkMatrix (ncols M)
    (map (fun ir =>
            map (fun jx =>
                   let p := (fst ir * ncols M + fst jx)%nat in
                   if Nat.eqb (p mod step) 0
                   then snd jx + nth (p / step) v 0
                   else snd jx)
                (combine (seq 0 (length (snd ir))) (snd ir)))
         (combine (seq 0 (nrows M)) (rows M))).

(** ** The libraries called *)

Class LinAlg := {
  (** the state of a [numpy.random.RandomState] *)
  rng : Type;
  (** [np.random.RandomState(seed)] *)
  RandomState : Z -> rng;
  (** [linalg.svd(M, full_matrices=False)]: the singular values and the
      right-singular vectors (the left ones are dropped by the caller). *)
  linalg_svd : matrix -> vector * matrix;
  (** [randomized_svd(M, n_components, random_state=g, n_iter=p)]: the same
      two results, and the state the generator is left in. *)
  randomized_svd : matrix -> nat -> rng -> nat -> vector * matrix * rng;
  (** [linalg.inv(M)] *)
  linalg_inv : matrix -> matrix
}.

(** What the decompositions promise about shapes: as many singular values as
    singular vectors, each vector as wide as the input; the exact one returns
    [min(n_samples, n_features)] of them, the randomized one the number asked
    for when the input has that many rows and columns. *)
Definition svd_shapes (L : LinAlg) : Prop :=
  (forall M, wf_matrix M ->
     let '(s, V) := linalg_svd M in
     length s = Nat.min (nrows M) (ncols M) /\ nrows V = length s /\
     ncols V = ncols M /\ wf_matrix V) /\
  (forall M k g p, wf_matrix M ->
     let '(s, V, _) := randomized_svd M k g p in
     nrows V = length s /\ ncols V = ncols M /\ wf_matrix V /\
     (k <= Nat.min (nrows M) (ncols M) -> length s = k)%nat).

(** The inverse of a square array has its shape. *)
Definition inv_shapes (L : LinAlg) : Prop :=
  forall M, wf_matrix M -> nrows M = ncols M ->
    nrows (linalg_inv M) = nrows M /\ ncols (linalg_inv M) = ncols M /\
    wf_matrix (linalg_inv M).

(** ** Pseudo-random generators *)

(** The [random_state] parameter: an integer seed, or a [RandomState] object
    that the caller owns. *)
Inductive seed_spec := SeedInt (seed : Z) | SeedInstance.

(** The generator that outlives a call: the caller's object. *)
Record rng_world {L : LinAlg} := mkWorld { user_instance : rng }.

(** The generator object a call works with: one of its own, or the
    caller's. *)
Inductive rng_handle {L : LinAlg} := Fresh (g : rng) | UserRng.

(** Modelled from the spec: [check_random_state] of [sklearn.utils] is not
    part of the source file.  The parameter is documented as "int or
    RandomState", a "seeded pseudo-random source": an integer seeds a new
    generator, a generator object is used as it is. *)
Definition check_random_state {L : LinAlg} (s : seed_spec) : rng_handle :=
  match s with
  | SeedInt z => Fresh (RandomState z)
  | SeedInstance => UserRng
  end.

Definition read_rng {L : LinAlg} (h : rng_handle) (w : rng_world) : rng :=
  match h with
  | Fresh g => g
  | UserRng => user_instance w
  end.

Definition write_rng {L : LinAlg} (h : rng_handle) (g : rng) (w : rng_world)
  : rng_world :=
  match h with
  | Fresh _ => w
  | UserRng => mkWorld L g
  end.

(** ** The estimator *)

Inductive value_error :=
| InitDimension (given n_features : nat)
| SvdMethodNotSupported (name : string).

Inductive exn :=
| ValueError (e : value_error)
| UnboundLocalError (name : string)
| AttributeError (name : string).

Inductive outcome (A : Type) :=
| Returned (a : A)
| Raised (e : exn).
Arguments Returned {A} a.
Arguments Raised {A} e.

Inductive warning := ConvergenceWarning.

(** The parameters set by [__init__] and the attributes set by [fit]; an
    attribute that has not been assigned is [None]. *)
Record FactorAnalysis := mkFA {
  n_components : option nat;
  tol : R;
  copy : bool;
  max_iter : Z;
  noise_variance_init : option vector;
  svd_method : string;
  iterated_power : nat;
  random_state : seed_spec;
  mean_ : option vector;
  components_ : option matrix;
  noise_variance_ : option vector;
  loglike_ : option (list R)
}.

Definition set_mean_ (self : FactorAnalysis) (m : vector) : FactorAnalysis :=
  mkFA (n_components self) (tol self) (copy self) (max_iter self)
       (noise_variance_init self) (svd_method self) (iterated_power self)
       (random_state self)
       (Some m) (components_ self) (noise_variance_ self) (loglike_ self).

Definition set_fitted (self : FactorAnalysis) (W : matrix) (psi : vector)
           (loglike : list R) : FactorAnalysis :=
  mkFA (n_components self) (tol self) (copy self) (max_iter self)
       (noise_variance_init self) (svd_method self) (iterated_power self)
       (random_state self)
       (mean_ self) (Some W) (Some psi) (Some loglike).

(** [old_ll]: [-np.inf] until an iteration has stored its log-likelihood. *)
Inductive prev_ll := NegInf | Prev (ll : R).

Definition Rltb (a b : R) : bool := if Rlt_dec a b then true else false.

(** [(ll - old_ll) < self.tol]; [ll - (-inf)] is [+inf], below no tolerance. *)
Definition converged (ll : R) (old_ll : prev_ll) (tol : R) : bool :=
  match old_ll with
  | NegInf => false
  | Prev o => Rltb (ll - o) tol
  end.

Definition SMALL : R := 1e-12.

(** ** The EM loop of [fit] (lines 197-221) *)

(** A ghost record of one executed iteration: what it read and what it
    computed.  Nothing in the program reads it; the statements about "every
    iteration" are made on it. *)
Record iteration := mkIter {
  it_psi : vector;        (** [psi] as the iteration finds it *)
  it_old_ll : prev_ll;    (** [old_ll] as the iteration finds it *)
  it_sqrt_psi : vector;   (** [np.sqrt(psi) + SMALL] *)
  it_input : matrix;      (** the argument of [my_svd] *)
  it_s : vector;          (** the singular values [my_svd] returned *)
  it_V : matrix;          (** the singular vectors [my_svd] returned *)
  it_unexp_var : R;       (** the unexplained variance [my_svd] returned *)
  it_W : matrix;          (** the loading matrix computed *)
  it_ll : R               (** the log-likelihood appended *)
}.

Section EM.
(** [G] is the state of the generator that [my_svd] draws from: nothing for
    the exact decomposition, a [RandomState] for the randomized one. *)
Variable G : Type.
Variable my_svd : matrix -> G -> vector * matrix * R * G.
(** the centred data and the constants of lines 153-163 *)
Variable X : matrix.
Variable n_samples : nat.
Variable nsqrt : R.
Variable llconst : R.
Variable var : vector.
Variable tol_ : R.

(** The local variables that the loop reads and assigns; [W] is unbound
    until an iteration has run.  [trace] is the ghost log of the iterations
    executed so far. *)
Record em_state := mkState {
  psi : vector;
  old_ll : prev_ll;
  loglike : list R;
  W : option matrix;
  gen : G;
  trace : list iteration
}.

(** One pass through the body; the boolean tells whether it left by
    [break]. *)
Definition em_body (st : em_state) : em_state * bool :=
  let sqrt_psi := map (fun p => sqrt p + SMALL) (psi st) in
  let input := row_op Rdiv X (map (fun q => q * nsqrt) sqrt_psi) in
  let '(s0, V, unexp_var, g') := my_svd input (gen st) in
  let s := map (fun x => x * x) s0 in
  let W0 := scale_rows (map (fun x => sqrt (Rmax (x - 1) 0)) s) V in
  let W1 := row_op Rmult W0 sqrt_psi in
  let ll0 := llconst + np_sum (map ln s) in
  let ll1 := ll0 + (unexp_var + np_sum (map ln (psi st))) in
  let ll := ll1 * (- INR n_samples / 2) in
  let loglike' := loglike st ++ [ll] in
  let rec := mkIter (psi st) (old_ll st) sqrt_psi input s0 V unexp_var W1 ll in
  if converged ll (old_ll st) tol_
  then (mkState (psi st) (old_ll st) loglike' (Some W1) g'
                (trace st ++ [rec]), true)
  else (mkState (np_maximum (vmap2 Rminus var (col_sum (msquare W1))) SMALL)
                (Prev ll) loglike' (Some W1) g'
                (trace st ++ [rec]), false).

(** [for i in xrange(n): body]; the boolean tells whether the loop was left
    by [break] (so that the [else] clause is skipped). *)
Fixpoint em_loop (n : nat) (st : em_state) : em_state * bool :=
  match n with
  | O => (st, false)
  | S n' =>
      let '(st', brk) := em_body st in
      if brk then (st', true) else em_loop n' st'
  end.
End EM.

Arguments psi {G} _.
Arguments old_ll {G} _.
Arguments loglike {G} _.
Arguments W {G} _.
Arguments gen {G} _.
Arguments trace {G} _.
Arguments mkState {G} _ _ _ _ _ _.

(** ** [fit] *)

Section Methods.
Context {L : LinAlg}.

(** [my_svd] of lines 181-184. *)
Definition my_svd_lapack (k : nat) (M : matrix) (g : unit)
  : vector * matrix * R * unit :=
  let '(s, V) := linalg_svd M in
  (firstn k s, mkMatrix (ncols V) (firstn k (rows V)),
   np_dot1 (skipn k s) (skipn k s), g).

(** [my_svd] of lines 188-192. *)
Definition my_svd_randomized (k p : nat) (M : matrix) (g : rng)
  : vector * matrix * R * rng :=
  let '(s, V, g') := randomized_svd M k g p in
  (s, V, np_dot1 (flat M) (flat M) - np_dot1 s s, g').

(** What a call of [fit] leaves behind: how it ended, the estimator, the
    array the caller passed, the warnings issued, the generators, and the
    ghost record of the iterations. *)
Record fit_result := mkFit {
  fit_outcome : outcome unit;
  fit_self : FactorAnalysis;
  fit_X : matrix;
  fit_warnings : list warning;
  fit_world : rng_world;
  fit_trace : list iteration
}.

(** Lines 217-226: the [else] clause of the loop and the assignments. *)
Definition fit_finish {G : Type} (self : FactorAnalysis) (X_caller : matrix)
           (w : rng_world) (r : em_state G * bool) : fit_result :=
  let warns := if snd r then [] else [ConvergenceWarning] in
  match W (fst r) with
  | None =>
      mkFit (Raised (UnboundLocalError "W")) self X_caller warns w
            (trace (fst r))
  | Some W_ =>
      mkFit (Returned tt)
            (set_fitted self W_ (psi (fst r)) (loglike (fst r)))
            X_caller warns w (trace (fst r))
  end.

(** [n_components], with its default. *)
Definition n_components_of (self : FactorAnalysis) (X : matrix) : nat :=
  match n_components self with
  | None => ncols X
  | Some k => k
  end.

Definition fit (self : FactorAnalysis) (X_arg : matrix) (w : rng_world)
  : fit_result :=
  (* 150: [X] is a copy of the argument, or the argument itself *)
  let n_samples := nrows X_arg in
  let n_features := ncols X_arg in
  let n_comp := n_components_of self X_arg in
  let self1 := set_mean_ self (np_mean X_arg) in
  (* 158: in place *)
  let X := row_op Rminus X_arg (np_mean X_arg) in
  let X_caller := if copy self then X_arg else X in
  let nsqrt := sqrt (INR n_samples) in
  let llconst := INR n_features * ln (2 * PI) + INR n_comp in
  let var := np_var X in
  let start (psi0 : vector) (G : Type) (g : G) : em_state G :=
    mkState psi0 NegInf [] None g [] in
  let run (psi0 : vector) : fit_result :=
    if String.eqb (svd_method self) "lapack" then
      fit_finish self1 X_caller w
        (em_loop unit (my_svd_lapack n_comp) X n_samples nsqrt llconst var
                 (tol self) (Z.to_nat (max_iter self)) (start psi0 unit tt))
    else if String.eqb (svd_method self) "randomized" then
      let h := check_random_state (random_state self) in
      let r := em_loop rng (my_svd_randomized n_comp (iterated_power self))
                       X n_samples nsqrt llconst var (tol self)
                       (Z.to_nat (max_iter self))
                       (start psi0 rng (read_rng h w)) in
      fit_finish self1 X_caller (write_rng h (gen (fst r)) w) r
    else
      mkFit (Raised (ValueError (SvdMethodNotSupported (svd_method self))))
            self1 X_caller [] w []
  in
  match noise_variance_init self with
  | None => run (repeat 1 n_features)
  | Some init =>
      if negb (Nat.eqb (length init) n_features)
      then mkFit (Raised (ValueError (InitDimension (length init) n_features)))
                 self1 X_caller [] w []
      else run init
  end.

(** ** [transform] and [get_covariance]

    Both return their result with the estimator and, for [transform], the
    caller's array as the call leaves them. *)

Definition transform (self : FactorAnalysis) (X : matrix)
  : outcome matrix * FactorAnalysis * matrix :=
  match components_ self, mean_ self, noise_variance_ self with
  | None, _, _ => (Raised (AttributeError "components_"), self, X)
  | Some _, None, _ => (Raised (AttributeError "mean_"), self, X)
  | Some _, Some _, None => (Raised (AttributeError "noise_variance_"), self, X)
  | Some W_, Some mean, Some psi_ =>
      let Ih := np_eye (nrows W_) in
      let X_transformed := row_op Rminus X mean in
      let Wpsi := row_op Rdiv W_ psi_ in
      let cov_z := linalg_inv (madd Ih (np_dot Wpsi (np_T W_))) in
      let tmp := np_dot X_transformed (np_T Wpsi) in
      (Returned (np_dot tmp cov_z), self, X)
  end.

Definition get_covariance (self : FactorAnalysis)
  : outcome matrix * FactorAnalysis :=
  match components_ self, noise_variance_ self with
  | None, _ => (Raised (AttributeError "components_"), self)
  | Some _, None => (Raised (AttributeError "noise_variance_"), self)
  | Some W_, Some psi_ =>
      let cov := np_dot (np_T W_) W_ in
      (Returned (flat_stride_iadd cov (nrows cov + 1) psi_), self)
  end.
End Methods.

(** ** Reading a run of [fit] *)

(** Line 216. *)
Definition psi_update (var : vector) (W_ : matrix) : vector :=
  np_maximum (vmap2 Rminus var (col_sum (msquare W_))) SMALL.

(** The convergence test of line 212, as the iteration evaluated it. *)
Definition fired (tol_ : R) (r : iteration) : bool :=
  converged (it_ll r) (it_old_ll r) tol_.

(** Lines 199-210 relate the fields of a record; [decomp M s V u] says that
    [my_svd M] returned [(s, V, u)]. *)
Definition iteration_ok (decomp : matrix -> vector -> matrix -> R -> Prop)
           (X : matrix) (nsqrt llconst : R) (n_samples : nat) (r : iteration)
  : Prop :=
  it_sqrt_psi r = map (fun p => sqrt p + SMALL) (it_psi r) /\
  it_input r = row_op Rdiv X (map (fun q => q * nsqrt) (it_sqrt_psi r)) /\
  decomp (it_input r) (it_s r) (it_V r) (it_unexp_var r) /\
  it_W r = row_op Rmult
             (scale_rows (map (fun x => sqrt (Rmax (x - 1) 0))
                              (map (fun x => x * x) (it_s r)))
                         (it_V r))
             (it_sqrt_psi r) /\
  it_ll r = (llconst + np_sum (map ln (map (fun x => x * x) (it_s r)))
             + (it_unexp_var r + np_sum (map ln (it_psi r))))
            * (- INR n_samples / 2).

(** Consecutive iterations: each one finds the [psi] and the [old_ll] that the
    one before left, and only the last one may have passed the test. *)
Fixpoint chained (var : vector) (tol_ : R) (p : vector) (o : prev_ll)
         (t : list iteration) : Prop :=
  match t with
  | [] => True
  | r :: t' =>
      it_psi r = p /\ it_old_ll r = o /\
      (t' <> [] -> fired tol_ r = false) /\
      chained var tol_ (psi_update var (it_W r)) (Prev (it_ll r)) t'
  end.

Fixpoint last_iteration (t : list iteration) : option iteration :=
  match t with
  | [] => None
  | [r] => Some r
  | _ :: t' => last_iteration t'
  end.

(** [my_svd M] returned [(s, V, u)], from some state of the generator. *)
Definition returned_by {G : Type} (my_svd : matrix -> G -> vector * matrix * R * G)
           (M : matrix) (s : vector) (V : matrix) (u : R) : Prop :=
  exists g g', my_svd M g = (s, V, u, g').

(** The data after line 158. *)
Definition centred (X : matrix) : matrix := row_op Rminus X (np_mean X).

(** [psi] before the loop. *)
Definition initial_psi (self : FactorAnalysis) (X : matrix) : vector :=
  match noise_variance_init self with
  | None => repeat 1 (ncols X)
  | Some init => init
  end.

(** The configuration passes the two checks of [fit]. *)
Definition reaches_loop (self : FactorAnalysis) (X : matrix) : Prop :=
  (forall init, noise_variance_init self = Some init ->
                length init = ncols X) /\
  (svd_method self = "lapack"%string \/ svd_method self = "randomized"%string).

(** [llconst] of line 162. *)
Definition llconst_of (self : FactorAnalysis) (X : matrix) : R :=
  INR (ncols X) * ln (2 * PI) + INR (n_components_of self X).

(** [my_svd M] returned [(s, V, u)] in a call [fit self X]. *)
Definition fit_decomp {L : LinAlg} (self : FactorAnalysis) (X : matrix)
           (M : matrix) (s : vector) (V : matrix) (u : R) : Prop :=
  if String.eqb (svd_method self) "lapack"
  then my_svd_lapack (n_components_of self X) M tt = (s, V, u, tt)
  else exists g g',
      my_svd_randomized (n_components_of self X) (iterated_power self) M g
      = (s, V, u, g').

(** The iterations of a call were computed as the body of the loop says. *)
Definition fit_iteration_ok {L : LinAlg} (self : FactorAnalysis) (X : matrix)
  : iteration -> Prop :=
  iteration_ok (fit_decomp self X) (centred X) (sqrt (INR (nrows X)))
               (llconst_of self X) (nrows X).

(** Shapes of a fitted model: [components_] is [k] by [n], [mean_] and
    [noise_variance_] have length [n]. *)
Definition fitted_shapes (self : FactorAnalysis) (k n : nat) : Prop :=
  exists mu W_ psi_,
    mean_ self = Some mu /\ components_ self = Some W_ /\
    noise_variance_ self = Some psi_ /\
    length mu = n /\ nrows W_ = k /\ ncols W_ = n /\ wf_matrix W_ /\
    length psi_ = n.

(** Positive semi-definiteness of an [n] by [n] array: the quadratic form is
    nowhere negative. *)
Definition quad_form (C : matrix) (x : vector) : R :=
  np_sum (map (fun i =>
                 np_sum (map (fun j => nth i x 0 * entry C i j * nth j x 0)
                             (seq 0 (length x))))
              (seq 0 (length x))).

Definition positive_semidefinite (C : matrix) : Prop :=
  forall x, length x = nrows C -> 0 <= quad_form C x.

Definition symmetric (C : matrix) : Prop :=
  forall i j, (i < nrows C)%nat -> (j < nrows C)%nat ->
              entry C i j = entry C j i.

(** [(W^T W)[i, j]]: the sum over the components [k] of
    [W[k, i] * W[k, j]]. *)
Definition gram (W_ : matrix) (i j : nat) : R :=
  np_sum (map (fun r => nth i r 0 * nth j r 0) (rows W_)).

(** The array that [get_covariance] builds from [components_] and
    [noise_variance_]. *)
Definition cov_of (W_ : matrix) (psi_ : vector) : matrix :=
  flat_stride_iadd (np_dot (np_T W_) W_)
                   (nrows (np_dot (np_T W_) W_) + 1) psi_.

(** The same parameters, whatever the fitted attributes. *)
Definition same_parameters (a b : FactorAnalysis) : Prop :=
  n_components a = n_components b /\ tol a = tol b /\ copy a = copy b /\
  max_iter a = max_iter b /\
  noise_variance_init a = noise_variance_init b /\
  svd_method a = svd_method b /\ iterated_power a = iterated_power b /\
  random_state a = random_state b.

(** The summary of a call, read off the ghost trace. *)
Definition run_summary {L : LinAlg} (self : FactorAnalysis) (X : matrix) (r : fit_result)
  : Prop :=
  let t := fit_trace r in
  Forall (fit_iteration_ok self X) t /\
  chained (np_var (centred X)) (tol self) (initial_psi self X) NegInf t /\
  (length t <= Z.to_nat (max_iter self))%nat /\
  fit_X r = (if copy self then X else centred X) /\
  match last_iteration t with
  | None =>
      Z.to_nat (max_iter self) = 0%nat /\
      fit_outcome r = Raised (UnboundLocalError "W") /\
      fit_warnings r = [ConvergenceWarning] /\
      fit_self r = set_mean_ self (np_mean X)
  | Some rl =>
      fit_outcome r = Returned tt /\
      fit_self r =
        set_fitted (set_mean_ self (np_mean X)) (it_W rl)
                   (if fired (tol self) rl then it_psi rl
                    else psi_update (np_var (centred X)) (it_W rl))
                   (map it_ll t) /\
      fit_warnings r =
        (if fired (tol self) rl then [] else [ConvergenceWarning]) /\
      (fired (tol self) rl = false -> length t = Z.to_nat (max_iter self))
  end.

(** ** Statements that are tested against the code *)

(** A wrong length of [noise_variance_init] is refused before anything else
    is done: the caller's array and the attributes are as before the call. *)
Definition fails_before_any_computation {L : LinAlg} (self : FactorAnalysis)
           (X : matrix) (w : rng_world) : Prop :=
  forall init, noise_variance_init self = Some init ->
    length init <> ncols X ->
    let r := fit self X w in
    (exists e, fit_outcome r = Raised (ValueError e)) /\
    fit_X r = X /\
    mean_ (fit_self r) = mean_ self /\
    components_ (fit_self r) = components_ self /\
    noise_variance_ (fit_self r) = noise_variance_ self /\
    loglike_ (fit_self r) = loglike_ self.

(** The loop is left at the first iteration that passes the test, and at no
    other: an iteration that passes is the last one executed and no warning
    follows; when none passes, all [max_iter] iterations are executed. *)
Definition stops_at_first_pass {L : LinAlg} (self : FactorAnalysis)
           (X : matrix) (w : rng_world) : Prop :=
  let r := fit self X w in
  let t := fit_trace r in
  chained (np_var (centred X)) (tol self) (initial_psi self X) NegInf t /\
  (forall i rec, nth_error t i = Some rec -> fired (tol self) rec = true ->
                 S i = length t /\ fit_warnings r = []) /\
  ((forall rec, In rec t -> fired (tol self) rec = false) ->
   length t = Z.to_nat (max_iter self) /\
   fit_warnings r = [ConvergenceWarning]) /\
  (forall lls, loglike_ (fit_self r) = Some lls ->
               fit_outcome r = Returned tt -> lls = map it_ll t).

(** An iteration whose log-likelihood is below the previous one passes the
    test: it is the last one executed. *)
Definition stops_on_decrease {L : LinAlg} (self : FactorAnalysis)
           (X : matrix) (w : rng_world) : Prop :=
  let t := fit_trace (fit self X w) in
  forall i rec o, nth_error t i = Some rec -> it_old_ll rec = Prev o ->
                  it_ll rec < o ->
                  fired (tol self) rec = true /\ S i = length t.

(** The two together. *)
Definition stops_at_first_small_increase {L : LinAlg} (self : FactorAnalysis)
           (X : matrix) (w : rng_world) : Prop :=
  stops_at_first_pass self X w /\ stops_on_decrease self X w.

(** Every [psi] that an iteration reads, and the one stored, is at least
    [SMALL] in every entry. *)
Definition psi_floored_everywhere {L : LinAlg} (self : FactorAnalysis)
           (X : matrix) (w : rng_world) : Prop :=
  let r := fit self X w in
  (forall rec, In rec (fit_trace r) -> Forall (Rle SMALL) (it_psi rec)) /\
  (forall psi_, noise_variance_ (fit_self r) = Some psi_ ->
                fit_outcome r = Returned tt -> Forall (Rle SMALL) psi_).

(** When no executed iteration passes the test, [fit] warns and returns a
    model of the announced shapes with a non-empty trajectory. *)
Definition exhaustion_returns_model {L : LinAlg} (self : FactorAnalysis)
           (X : matrix) (w : rng_world) : Prop :=
  let r := fit self X w in
  (forall rec, In rec (fit_trace r) -> fired (tol self) rec = false) ->
  length (fit_trace r) = Z.to_nat (max_iter self) ->
  fit_outcome r = Returned tt /\
  fit_warnings r = [ConvergenceWarning] /\
  fitted_shapes (fit_self r) (n_components_of self X) (ncols X) /\
  exists lls, loglike_ (fit_self r) = Some lls /\ lls <> [] /\
              length lls = Z.to_nat (max_iter self).

(** ** A concrete library and concrete calls *)

(** The thin singular value decomposition, exact on arrays with a single
    column (the norm of the column, and the vector [[1]]) and on arrays of
    zeros (zeros, and rows of the identity).  It is only used on such
    arrays. *)
Definition column_svd (M : matrix) : vector * matrix :=
  let r := Nat.min (nrows M) (ncols M) in
  match ncols M with
  | 1%nat => (firstn r [sqrt (np_dot1 (col M 0) (col M 0))],
              mkMatrix 1 (firstn r [[1]]))
  | m => (repeat 0 r, mkMatrix m (firstn r (rows (np_eye m))))
  end.

(** A library for one-column data: the decomposition above, a generator
    whose state counts the draws, and the inverse of an array of at most one
    entry. *)
Definition column_library : LinAlg :=
  {| rng := nat;
     RandomState := Z.to_nat;
     linalg_svd := column_svd;
     randomized_svd := fun M k g _ =>
       (firstn k (fst (column_svd M)),
        mkMatrix (ncols (snd (column_svd M)))
                 (firstn k (rows (snd (column_svd M)))),
        S g);
     linalg_inv := fun M => mkMatrix (ncols M) (map (map Rinv) (rows M)) |}.

Definition world0 : @rng_world column_library := @mkWorld column_library 0%nat.

(** A generator that has been drawn from. *)
Definition world1 : @rng_world column_library := @mkWorld column_library 7%nat.

(** [FactorAnalysis(svd_method='lapack')], otherwise the defaults. *)
Definition fa_lapack : FactorAnalysis :=
  mkFA None 1e-2 true 1000 None "lapack" 3 (SeedInt 0) None None None None.

(** Two samples of five features. *)
Definition X_2x5 : matrix :=
  mkMatrix 5 [[1; 2; 3; 4; 5]; [3; 4; 5; 6; 7]].

(** [noise_variance_init] of length 3, [copy=False]. *)
Definition fa_init3 : FactorAnalysis :=
  mkFA None 1e-2 false 1000 (Some [1; 1; 1]) "lapack" 3 (SeedInt 0)
       None None None None.

(** Two samples of one feature. *)
Definition X_col4 : matrix := mkMatrix 1 [[0]; [4]].

(** A single sample of two features. *)
Definition X_1x2 : matrix := mkMatrix 2 [[1; 2]].

(** [tol=-2, max_iter=3, noise_variance_init=[1e-24]]. *)
Definition fa_negative_tol : FactorAnalysis :=
  mkFA None (-2) true 3 (Some [1e-24]) "lapack" 3 (SeedInt 0)
       None None None None.

(** [noise_variance_init=[0.], max_iter=1]. *)
Definition fa_init_zero : FactorAnalysis :=
  mkFA None 1e-2 true 1 (Some [0]) "lapack" 3 (SeedInt 0) None None None None.

(** [max_iter=0] and [max_iter=1]. *)
Definition fa_no_iteration : FactorAnalysis :=
  mkFA None 1e-2 true 0 None "lapack" 3 (SeedInt 0) None None None None.
Definition fa_one_iteration : FactorAnalysis :=
  mkFA None 1e-2 true 1 None "lapack" 3 (SeedInt 0) None None None None.

(** A fitted model with one factor and two features. *)
Definition fa_fitted : FactorAnalysis :=
  mkFA (Some 1%nat) 1e-2 true 1000 None "lapack" 3 (SeedInt 0)
       (Some [1; 2]) (Some (mkMatrix 2 [[3; 4]])) (Some [1; 2]) (Some [0]).

(** ** The constructor and [score] *)




(** [(A * B).sum(axis=1)]: the sums of the rows of the elementwise
    product. *)
Definition row_dots (A B : matrix) : vector :=
  map (fun p => np_sum (vmap2 Rmult (fst p) (snd p)))
      (combine (rows A) (rows B)).

Section Scoring.
Context {L : LinAlg}.
(** [fast_logdet] of [sklearn.utils.extmath] *)
Variable fast_logdet : matrix -> R.

(** [score] (lines 270-290).  The attribute [precision_], which only this
    method assigns, is passed and returned beside the estimator. *)
Definition score (self : FactorAnalysis) (precision_ : option matrix)
           (X : matrix)
  : outcome vector * FactorAnalysis * option matrix * matrix :=
  match mean_ self with
  | None => (Raised (AttributeError "mean_"), self, precision_, X)
  | Some mean =>
      let Xr := row_op Rminus X mean in
      match fst (get_covariance self) with
      | Raised e => (Raised e, self, precision_, X)
      | Returned cov =>
          let n_features := ncols X in
          let P := linalg_inv cov in
          let log_like := map (Rmult (- 0.5)) (row_dots Xr (np_dot Xr P)) in
          let c := 0.5 * (fast_logdet cov + INR n_features * ln (2 * PI)) in
          (Returned (map (fun x => x - c) log_like), self, Some P, X)
      end
  end.
End Scoring.

(** Positive definiteness of an [n] by [n] array. *)
Definition positive_definite (C : matrix) : Prop :=
  forall x, length x = nrows C -> (exists i, nth i x 0 <> 0) ->
            0 < quad_form C x.

(** [FactorAnalysis(svd_method='lapack', copy=False)]. *)
Definition fa_inplace : FactorAnalysis :=
  mkFA None 1e-2 false 1000 None "lapack" 3 (SeedInt 0) None None None None.

(** [FactorAnalysis(n_components=0, svd_method='lapack', max_iter=1)]. *)
Definition fa_no_factor : FactorAnalysis :=
  mkFA (Some 0%nat) 1e-2 true 1 None "lapack" 3 (SeedInt 0)
       None None None None.

(** * Facts *)

(** ** The floor *)

Lemma SMALL_pos : 0 < SMALL.
Proof. unfold SMALL. lra. Qed.

Lemma Rltb_true (a b : R) : Rltb a b = true <-> a < b.
Proof.
  unfold Rltb. destruct (Rlt_dec a b); split; intros; try easy.
Qed.

Lemma Rltb_false (a b : R) : Rltb a b = false <-> b <= a.
Proof.
  unfold Rltb. destruct (Rlt_dec a b); split; intros; try easy; lra.
Qed.

(** The first iteration never passes the test. *)
Lemma converged_NegInf (ll tol_ : R) : converged ll NegInf tol_ = false.
Proof. reflexivity. Qed.

(** ** The loop *)

Lemma iteration_ok_weaken (d1 d2 : matrix -> vector -> matrix -> R -> Prop)
      X nsqrt llconst n r :
  (forall M s V u, d1 M s V u -> d2 M s V u) ->
  iteration_ok d1 X nsqrt llconst n r -> iteration_ok d2 X nsqrt llconst n r.
Proof.
  intros Hd (H1 & H2 & H3 & H4 & H5). repeat split; auto.
Qed.

Lemma last_iteration_cons (r : iteration) (t : list iteration) :
  last_iteration (r :: t) =
  match t with [] => Some r | _ => last_iteration t end.
Proof. destruct t; reflexivity. Qed.

Lemma last_iteration_None (t : list iteration) :
  last_iteration t = None -> t = [].
Proof.
  induction t as [|r t IH]; [reflexivity|].
  rewrite last_iteration_cons. destruct t; [discriminate|].
  intros H. specialize (IH H). discriminate.
Qed.

Lemma last_iteration_nth (t : list iteration) (r : iteration) :
  last_iteration t = Some r -> nth_error t (length t - 1) = Some r.
Proof.
  induction t as [|a t IH]; [discriminate|].
  rewrite last_iteration_cons. destruct t as [|b t].
  - intros H. exact H.
  - intros H. specialize (IH H). simpl in *.
    rewrite Nat.sub_0_r in IH. exact IH.
Qed.

Lemma last_iteration_In (t : list iteration) (r : iteration) :
  last_iteration t = Some r -> In r t.
Proof.
  intros H. apply last_iteration_nth in H. eapply nth_error_In; eauto.
Qed.

Section LoopFacts.
Variable G : Type.
Variable my_svd : matrix -> G -> vector * matrix * R * G.
Variables (X : matrix) (n_samples : nat) (nsqrt llconst : R).
Variables (var : vector) (tol_ : R).

Let returned_by := returned_by my_svd.

(** What one pass through the body does to the local variables. *)
Lemma em_body_spec (st : em_state G) :
  exists r,
    iteration_ok returned_by X nsqrt llconst n_samples r /\
    it_psi r = psi st /\ it_old_ll r = old_ll st /\
    let res := em_body G my_svd X n_samples nsqrt llconst var tol_ st in
    snd res = fired tol_ r /\
    trace (fst res) = trace st ++ [r] /\
    loglike (fst res) = loglike st ++ [it_ll r] /\
    W (fst res) = Some (it_W r) /\
    psi (fst res) =
      (if fired tol_ r then psi st else psi_update var (it_W r)) /\
    old_ll (fst res) =
      (if fired tol_ r then old_ll st else Prev (it_ll r)).
Proof.
  unfold em_body.
  destruct (my_svd _ (gen st)) as [[[s0 V] u] g'] eqn:E.
  eexists (mkIter (psi st) (old_ll st) _ _ s0 V u _ _).
  split.
  - unfold iteration_ok; cbn [it_sqrt_psi it_psi it_input it_s it_V
                               it_unexp_var it_W it_ll].
    repeat split; try reflexivity.
    exists (gen st), g'. exact E.
  - cbn [it_psi it_old_ll]. split; [reflexivity|]. split; [reflexivity|].
    unfold fired; cbn [it_ll it_old_ll it_W].
    destruct (converged _ (old_ll st) tol_); cbn; repeat split; reflexivity.
Qed.

(** What the loop does: the iterations it adds to the trace are chained, at
    most [n], only the last may have passed the test, and the variables are
    those the last iteration left. *)
Lemma em_loop_spec (n : nat) : forall st : em_state G,
  exists t,
    let res := em_loop G my_svd X n_samples nsqrt llconst var tol_ n st in
    trace (fst res) = trace st ++ t /\
    loglike (fst res) = loglike st ++ map it_ll t /\
    Forall (iteration_ok returned_by X nsqrt llconst n_samples) t /\
    chained var tol_ (psi st) (old_ll st) t /\
    (length t <= n)%nat /\
    match last_iteration t with
    | None => n = 0%nat /\ fst res = st /\ snd res = false
    | Some r =>
        W (fst res) = Some (it_W r) /\ snd res = fired tol_ r /\
        psi (fst res) =
          (if fired tol_ r then it_psi r else psi_update var (it_W r)) /\
        (fired tol_ r = false -> length t = n)
    end.
Proof.
  induction n as [|n IH]; intros st.
  - exists []. cbn. rewrite !app_nil_r. repeat split; auto.
  - destruct (em_body_spec st) as (r & Hok & Hp & Ho & Hres).
    cbn [em_loop].
    destruct (em_body G my_svd X n_samples nsqrt llconst var tol_ st)
      as [st1 b] eqn:Eb.
    cbn [fst snd] in Hres.
    destruct Hres as (Hb & Ht & Hl & HW & Hpsi & Hold).
    destruct b.
    + exists [r]. cbn [fst snd map last_iteration length chained].
      rewrite <- Hb. rewrite <- Hb in Hpsi.
      repeat split; auto; try lia; try congruence.
    + rewrite <- Hb in Hpsi, Hold.
      destruct (IH st1) as (t1 & H1 & H2 & H3 & H4 & H5 & H6).
      exists (r :: t1). cbn zeta in *.
      rewrite last_iteration_cons.
      split; [rewrite H1, Ht, <- app_assoc; reflexivity|].
      split; [rewrite H2, Hl, <- app_assoc; reflexivity|].
      split; [constructor; assumption|].
      split; [cbn; rewrite <- Hb, <- Hpsi, <- Hold; auto|].
      split; [cbn; lia|].
      destruct t1 as [|r1 t1].
      * cbn in H6. destruct H6 as (Hn & Hst & Hbrk). subst n.
        rewrite Hst, Hbrk, <- Hb. repeat split; auto.
      * destruct (last_iteration (r1 :: t1)) as [rl|] eqn:El.
        -- destruct H6 as (A & B & C & D). repeat split; auto.
           intros Hf. cbn [length]. f_equal. apply D, Hf.
        -- apply last_iteration_None in El. discriminate.
Qed.
End LoopFacts.

(** ** A call of [fit] that reaches the loop *)

Section FitFacts.
Context {L : LinAlg}.

Lemma fit_decomp_lapack self X M s V u :
  svd_method self = "lapack"%string ->
  returned_by (my_svd_lapack (n_components_of self X)) M s V u ->
  fit_decomp self X M s V u.
Proof.
  intros Hm (g & g' & E). unfold fit_decomp. rewrite Hm. cbn.
  destruct g. unfold my_svd_lapack in *.
  destruct (linalg_svd M) as [s0 V0]. destruct g'. exact E.
Qed.

Lemma fit_decomp_randomized self X M s V u :
  svd_method self = "randomized"%string ->
  returned_by (my_svd_randomized (n_components_of self X) (iterated_power self))
              M s V u ->
  fit_decomp self X M s V u.
Proof.
  intros Hm H. unfold fit_decomp. rewrite Hm. cbn. exact H.
Qed.

Lemma fit_finish_summary (G : Type)
      (my_svd : matrix -> G -> vector * matrix * R * G)
      self X (w' : rng_world) g psi0 :
  (forall M s V u, returned_by my_svd M s V u -> fit_decomp self X M s V u) ->
  psi0 = initial_psi self X ->
  run_summary self X
    (fit_finish (set_mean_ self (np_mean X))
       (if copy self then X else centred X) w'
       (em_loop G my_svd (centred X) (nrows X) (sqrt (INR (nrows X)))
                (llconst_of self X) (np_var (centred X)) (tol self)
                (Z.to_nat (max_iter self))
                (mkState psi0 NegInf [] None g []))).
Proof.
  intros Hd Hpsi0.
  destruct (em_loop_spec G my_svd (centred X) (nrows X) (sqrt (INR (nrows X)))
              (llconst_of self X) (np_var (centred X)) (tol self)
              (Z.to_nat (max_iter self))
              (mkState psi0 NegInf [] None g []))
    as (t & Ht & Hl & Hok & Hch & Hlen & Hlast).
  cbn zeta in *. cbn [trace loglike psi old_ll app] in *.
  set (res := em_loop _ _ _ _ _ _ _ _ _ _) in *.
  assert (Htr : fit_trace (fit_finish (set_mean_ self (np_mean X))
                  (if copy self then X else centred X) w' res) = t).
  { unfold fit_finish. destruct (W (fst res)); cbn; exact Ht. }
  unfold run_summary. rewrite Htr.
  split.
  { eapply Forall_impl; [|exact Hok]. intros r Hr.
    unfold fit_iteration_ok. eapply iteration_ok_weaken; eauto. }
  split; [subst psi0; exact Hch|].
  split; [exact Hlen|].
  split; [unfold fit_finish; destruct (W (fst res)); reflexivity|].
  destruct (last_iteration t) as [rl|].
  - destruct Hlast as (HW & Hb & Hp & Hfull).
    unfold fit_finish. rewrite HW, Hb, Hp, Hl. cbn.
    repeat split; auto.
  - destruct Hlast as (Hn & Hst & Hb).
    unfold fit_finish. rewrite Hst, Hb. cbn. repeat split; auto.
Qed.

Lemma fit_run (self : FactorAnalysis) (X : matrix) (w : rng_world) :
  reaches_loop self X -> run_summary self X (fit self X w).
Proof.
  intros [Hinit Hm].
  assert (Hpsi : forall psi0, psi0 = initial_psi self X ->
            run_summary self X
              (if String.eqb (svd_method self) "lapack" then
                 fit_finish (set_mean_ self (np_mean X))
                   (if copy self then X else centred X) w
                   (em_loop unit (my_svd_lapack (n_components_of self X))
                      (centred X) (nrows X) (sqrt (INR (nrows X)))
                      (llconst_of self X) (np_var (centred X)) (tol self)
                      (Z.to_nat (max_iter self))
                      (mkState psi0 NegInf [] None tt []))
               else if String.eqb (svd_method self) "randomized" then
                 fit_finish (set_mean_ self (np_mean X))
                   (if copy self then X else centred X)
                   (write_rng (check_random_state (random_state self))
                      (gen (fst
                        (em_loop rng
                           (my_svd_randomized (n_components_of self X)
                                              (iterated_power self))
                           (centred X) (nrows X) (sqrt (INR (nrows X)))
                           (llconst_of self X) (np_var (centred X)) (tol self)
                           (Z.to_nat (max_iter self))
                           (mkState psi0 NegInf [] None
                              (read_rng (check_random_state (random_state self)) w)
                              [])))) w)
                   (em_loop rng
                      (my_svd_randomized (n_components_of self X)
                                         (iterated_power self))
                      (centred X) (nrows X) (sqrt (INR (nrows X)))
                      (llconst_of self X) (np_var (centred X)) (tol self)
                      (Z.to_nat (max_iter self))
                      (mkState psi0 NegInf [] None
                         (read_rng (check_random_state (random_state self)) w)
                         []))
               else
                 mkFit (Raised (ValueError
                                  (SvdMethodNotSupported (svd_method self))))
                       (set_mean_ self (np_mean X))
                       (if copy self then X else centred X) [] w [])).
  { intros psi0 Hpsi0. destruct Hm as [Hm|Hm]; rewrite Hm; cbn [String.eqb Ascii.eqb Bool.eqb].
    - apply fit_finish_summary; auto.
      intros M s V u. apply fit_decomp_lapack; exact Hm.
    - apply fit_finish_summary; auto.
      intros M s V u. apply fit_decomp_randomized; exact Hm. }
  unfold fit. unfold initial_psi in Hpsi.
  destruct (noise_variance_init self) as [init|] eqn:Ei.
  - rewrite (Hinit init eq_refl), Nat.eqb_refl. cbn [negb].
    apply Hpsi. reflexivity.
  - apply Hpsi. reflexivity.
Qed.
End FitFacts.

(** A call that returns has passed the two checks. *)
Lemma returned_reaches_loop {L : LinAlg} (self : FactorAnalysis) (X : matrix)
      (w : rng_world) :
  fit_outcome (fit self X w) = Returned tt -> reaches_loop self X.
Proof.
  unfold fit, reaches_loop. intros H.
  destruct (String.eqb (svd_method self) "lapack") eqn:El.
  - apply String.eqb_eq in El. split; [|left; exact El].
    intros init Hi. rewrite Hi in H.
    destruct (Nat.eqb (length init) (ncols X)) eqn:En.
    + apply Nat.eqb_eq, En.
    + cbn in H. discriminate H.
  - destruct (String.eqb (svd_method self) "randomized") eqn:Er.
    + apply String.eqb_eq in Er. split; [|right; exact Er].
      intros init Hi. rewrite Hi in H.
      destruct (Nat.eqb (length init) (ncols X)) eqn:En.
      * apply Nat.eqb_eq, En.
      * cbn in H. discriminate H.
    + destruct (noise_variance_init self) as [init|].
      * destruct (negb (Nat.eqb (length init) (ncols X)));
          cbn in H; discriminate H.
      * cbn in H. discriminate H.
Qed.

(** So has a call that executed an iteration. *)
Lemma executed_reaches_loop {L : LinAlg} (self : FactorAnalysis) (X : matrix)
      (w : rng_world) (rec : iteration) :
  In rec (fit_trace (fit self X w)) -> reaches_loop self X.
Proof.
  unfold fit, reaches_loop. intros H.
  destruct (String.eqb (svd_method self) "lapack") eqn:El.
  - apply String.eqb_eq in El. split; [|left; exact El].
    intros init Hi. rewrite Hi in H.
    destruct (Nat.eqb (length init) (ncols X)) eqn:En.
    + apply Nat.eqb_eq, En.
    + cbn in H. contradiction.
  - destruct (String.eqb (svd_method self) "randomized") eqn:Er.
    + apply String.eqb_eq in Er. split; [|right; exact Er].
      intros init Hi. rewrite Hi in H.
      destruct (Nat.eqb (length init) (ncols X)) eqn:En.
      * apply Nat.eqb_eq, En.
      * cbn in H. contradiction.
    + destruct (noise_variance_init self) as [init|].
      * destruct (negb (Nat.eqb (length init) (ncols X)));
          cbn in H; contradiction.
      * cbn in H. contradiction.
Qed.

(** ** The check of [noise_variance_init] *)

(** What [fit] has done when it refuses the three initial variances for the
    five features of [X_2x5] with [copy=False]: the means are stored and the
    caller's array holds the centred data. *)
Lemma fit_init3_leaves :
  let r := fit (L := column_library) fa_init3 X_2x5 world0 in
  fit_outcome r = Raised (ValueError (InitDimension 3 5)) /\
  mean_ (fit_self r) = Some [2; 3; 4; 5; 6] /\
  fit_X r = mkMatrix 5 [[-1; -1; -1; -1; -1]; [1; 1; 1; 1; 1]].
Proof.
  cbn zeta. unfold fit. cbn -[np_mean row_op np_var].
  assert (Hm : np_mean X_2x5 = [2; 3; 4; 5; 6]).
  { unfold np_mean, col_sum, X_2x5, nrows, vmap2. cbn.
    repeat (f_equal; try lra). }
  rewrite Hm. split; [reflexivity|]. split; [reflexivity|].
  unfold row_op, X_2x5, vmap2. cbn.
  repeat (f_equal; try lra).
Qed.

(** C1, as stated, fails: with three initial variances for five features and
    [copy=False], [fit] raises the error after it has stored [mean_] and
    centred the caller's array. *)
Lemma fit_wrong_init_length_not_untouched :
  ~ fails_before_any_computation (L := column_library) fa_init3 X_2x5 world0.
Proof.
  intros H.
  destruct (H [1; 1; 1] eq_refl) as (_ & _ & Hmean & _).
  - cbn. lia.
  - destruct fit_init3_leaves as (_ & Hm & _).
    rewrite Hm in Hmean. discriminate Hmean.
Qed.

(** C1 (amended): when the initial noise variances have a length other than
    [n_features], [fit] raises the error before the loop: no decomposition is
    computed, no warning is issued, the generators are not touched, and
    [components_], [noise_variance_] and [loglike_] are as before the call.
    By then [mean_] holds the column means of [X], and the caller's array
    holds the centred data when [copy] is false. *)
Theorem fit_refuses_wrong_init_length {L : LinAlg} (self : FactorAnalysis)
        (X : matrix) (w : rng_world) (init : vector) :
  noise_variance_init self = Some init ->
  length init <> ncols X ->
  let r := fit self X w in
  fit_outcome r = Raised (ValueError (InitDimension (length init) (ncols X))) /\
  fit_trace r = [] /\ fit_warnings r = [] /\ fit_world r = w /\
  components_ (fit_self r) = components_ self /\
  noise_variance_ (fit_self r) = noise_variance_ self /\
  loglike_ (fit_self r) = loglike_ self /\
  mean_ (fit_self r) = Some (np_mean X) /\
  fit_X r = (if copy self then X else centred X).
Proof.
  intros Hinit Hlen. cbn zeta. unfold fit. rewrite Hinit.
  apply Nat.eqb_neq in Hlen. rewrite Hlen. cbn.
  repeat split; reflexivity.
Qed.

Lemma fit_refuses_wrong_init_length_witness :
  let r := fit (L := column_library) fa_init3 X_2x5 world0 in
  fit_outcome r = Raised (ValueError (InitDimension 3 5)) /\
  fit_trace r = [] /\ fit_warnings r = [] /\ fit_world r = world0 /\
  components_ (fit_self r) = None /\
  noise_variance_ (fit_self r) = None /\
  loglike_ (fit_self r) = None /\
  mean_ (fit_self r) = Some (np_mean X_2x5) /\
  fit_X r = centred X_2x5.
Proof.
  apply (fit_refuses_wrong_init_length (L := column_library)
           fa_init3 X_2x5 world0 [1; 1; 1]).
  - reflexivity.
  - cbn. lia.
Defined.

(** ** Chained iterations *)

Lemma chained_first var tol_ p o t rec :
  chained var tol_ p o t -> nth_error t 0 = Some rec ->
  it_psi rec = p /\ it_old_ll rec = o.
Proof.
  destruct t as [|r t]; [discriminate|].
  intros (Hp & Ho & _) E. cbn in E. injection E as <-. auto.
Qed.

Lemma chained_next var tol_ : forall t p o i rec rec',
  chained var tol_ p o t ->
  nth_error t i = Some rec -> nth_error t (S i) = Some rec' ->
  fired tol_ rec = false /\
  it_psi rec' = psi_update var (it_W rec) /\
  it_old_ll rec' = Prev (it_ll rec).
Proof.
  induction t as [|r t IH]; intros p o i rec rec' Hc Hi Hi'.
  - destruct i; discriminate.
  - destruct Hc as (Hp & Ho & Hf & Hc).
    destruct i as [|i].
    + cbn in Hi. injection Hi as <-. cbn in Hi'.
      split.
      * apply Hf. intros ->. discriminate.
      * eapply chained_first; eauto.
    + cbn in Hi, Hi'. eapply IH; eauto.
Qed.

(** An iteration that passed the test is the last of the trace. *)
Lemma chained_fired_last var tol_ t p o i rec :
  chained var tol_ p o t -> nth_error t i = Some rec ->
  fired tol_ rec = true -> S i = length t.
Proof.
  intros Hc Hi Hf.
  assert (Hlt : (i < length t)%nat) by (apply nth_error_Some; congruence).
  destruct (Nat.eq_dec (S i) (length t)) as [|Hne]; [assumption|].
  destruct (nth_error t (S i)) as [rec'|] eqn:E.
  - destruct (chained_next _ _ _ _ _ _ _ _ Hc Hi E) as (Hnf & _).
    congruence.
  - apply nth_error_None in E. lia.
Qed.

Lemma nth_error_last_iteration (t : list iteration) (i : nat) rec :
  nth_error t i = Some rec -> S i = length t -> last_iteration t = Some rec.
Proof.
  intros Hi Hlen.
  destruct (last_iteration t) as [rl|] eqn:El.
  - apply last_iteration_nth in El.
    replace (length t - 1)%nat with i in El by lia. congruence.
  - apply last_iteration_None in El. subst t. destruct i; discriminate.
Qed.

(** Every [psi] computed by the update of line 216 is at least [SMALL]. *)
Lemma psi_update_floor var W_ : Forall (Rle SMALL) (psi_update var W_).
Proof.
  unfold psi_update, np_maximum. apply Forall_forall. intros x Hx.
  apply in_map_iff in Hx. destruct Hx as (y & <- & _). apply Rmax_r.
Qed.

(** ** The convergence test (C2) *)

Section Convergence.
Context {L : LinAlg}.
Variables (self : FactorAnalysis) (X : matrix) (w : rng_world).
Hypothesis Hreach : reaches_loop self X.

Lemma fit_stops_at_first_pass : stops_at_first_pass self X w.
Proof.
  pose proof (fit_run self X w Hreach) as (Hok & Hch & Hlen & _ & Hlast).
  unfold stops_at_first_pass. cbn zeta.
  split; [exact Hch|]. split; [|split].
  - intros i rec Hi Hf.
    pose proof (chained_fired_last _ _ _ _ _ _ _ Hch Hi Hf) as Hl.
    split; [exact Hl|].
    rewrite (nth_error_last_iteration _ _ _ Hi Hl) in Hlast.
    destruct Hlast as (_ & _ & Hw & _). rewrite Hw, Hf. reflexivity.
  - intros Hnone.
    destruct (last_iteration (fit_trace (fit self X w))) as [rl|] eqn:El.
    + destruct Hlast as (_ & _ & Hw & Hfull).
      pose proof (Hnone rl (last_iteration_In _ _ El)) as Hf.
      rewrite Hw, Hf. split; [apply Hfull, Hf|reflexivity].
    + destruct Hlast as (Hn & _ & Hw & _).
      apply last_iteration_None in El. rewrite El, Hn. auto.
  - intros lls Hll Hret.
    destruct (last_iteration (fit_trace (fit self X w))) as [rl|] eqn:El.
    + destruct Hlast as (_ & Hs & _). rewrite Hs in Hll. cbn in Hll.
      congruence.
    + destruct Hlast as (_ & Ho & _). congruence.
Qed.

Lemma fit_stops_on_decrease : 0 <= tol self -> stops_on_decrease self X w.
Proof.
  intros Htol i rec o Hi Ho Hlt.
  assert (Hf : fired (tol self) rec = true).
  { unfold fired. rewrite Ho. cbn. apply Rltb_true. lra. }
  split; [exact Hf|].
  destruct fit_stops_at_first_pass as (_ & H & _).
  apply (H i rec Hi Hf).
Qed.
End Convergence.

(** C2 (amended): in a call that reaches the loop, [old_ll] is minus infinity
    in the first iteration and the previous log-likelihood afterwards; an
    iteration with [ll - old_ll < tol] is the last one executed and no
    warning follows; when no iteration satisfies it, all [max_iter]
    iterations are executed; and, when [tol] is not negative, an iteration
    whose log-likelihood is below the previous one satisfies the test and is
    the last one. *)
Theorem em_stops_at_first_small_increase {L : LinAlg} (self : FactorAnalysis)
        (X : matrix) (w : rng_world) :
  reaches_loop self X ->
  stops_at_first_pass self X w /\
  (0 <= tol self -> stops_on_decrease self X w).
Proof.
  intros H. split.
  - apply fit_stops_at_first_pass; exact H.
  - apply fit_stops_on_decrease; exact H.
Qed.

Lemma em_stops_at_first_small_increase_witness :
  stops_at_first_pass (L := column_library) fa_lapack X_col4 world0 /\
  stops_on_decrease (L := column_library) fa_lapack X_col4 world0.
Proof.
  destruct (em_stops_at_first_small_increase (L := column_library)
              fa_lapack X_col4 world0) as [H1 H2].
  - split.
    + intros init H. discriminate H.
    + left. reflexivity.
  - split; [exact H1|]. apply H2. cbn. lra.
Defined.

(** ** Runs on the one-column data [X_col4] *)

Lemma centred_col4 : centred X_col4 = mkMatrix 1 [[-2]; [2]].
Proof.
  unfold centred, np_mean, row_op, col_sum, X_col4, nrows, vmap2. cbn.
  repeat (f_equal; try lra).
Qed.

Lemma var_col4 : np_var (centred X_col4) = [4].
Proof.
  rewrite centred_col4.
  unfold np_var, np_mean, row_op, msquare, col_sum, nrows, vmap2. cbn.
  repeat (f_equal; try lra).
Qed.

Lemma ln_le_pred (z : R) : 0 < z -> ln z <= z - 1.
Proof.
  intros Hz. destruct (Req_dec z 1) as [->|Hne].
  - rewrite ln_1. lra.
  - pose proof (exp_ineq1 (ln z) (ln_neq_0 z Hne Hz)) as H.
    rewrite (exp_ln z Hz) in H. lra.
Qed.

Lemma sqrt2_sqr : sqrt 2 * sqrt 2 = 2.
Proof. apply sqrt_sqrt. lra. Qed.

(** One iteration of the exact strategy on [X_col4] with one component, from
    [psi = [p]]: with [a = sqrt p + SMALL] and [a * a <= 4], the
    log-likelihood is [-(llconst + ln (4 / a^2) + ln p)] and the next [psi]
    is [max (a^2, SMALL)]. *)
Lemma col4_iteration (self : FactorAnalysis) (r : iteration) (p : R) :
  n_components self = None -> svd_method self = "lapack"%string ->
  fit_iteration_ok (L := column_library) self X_col4 r ->
  it_psi r = [p] ->
  0 < sqrt p + SMALL -> (sqrt p + SMALL) * (sqrt p + SMALL) <= 4 ->
  it_ll r = - (llconst_of self X_col4
               + ln (4 / ((sqrt p + SMALL) * (sqrt p + SMALL))) + ln p) /\
  psi_update (np_var (centred X_col4)) (it_W r)
  = [Rmax ((sqrt p + SMALL) * (sqrt p + SMALL)) SMALL].
Proof.
  intros Hk Hm (H1 & H2 & H3 & H4 & H5) Hp Ha Ha4.
  unfold fit_decomp, n_components_of in H3. rewrite Hm, Hk in H3. cbn in H3.
  rewrite Hp in H1. cbn [map] in H1.
  rewrite H1, centred_col4 in H2.
  replace (INR (nrows X_col4)) with 2 in * by (cbn; lra).
  unfold row_op, vmap2 in H2. cbn in H2.
  rewrite H2 in H3. unfold my_svd_lapack in H3. cbn in H3.
  set (a := sqrt p + SMALL) in *.
  injection H3 as Hs HV Hu.
  assert (Hs2 : 0 < sqrt 2) by (apply sqrt_lt_R0; lra).
  assert (Hq : -2 / (a * sqrt 2) * (-2 / (a * sqrt 2))
               + (2 / (a * sqrt 2) * (2 / (a * sqrt 2)) + 0) = 4 / (a * a)).
  { replace (4 / (a * a)) with (8 / ((a * a) * (sqrt 2 * sqrt 2)))
      by (rewrite sqrt2_sqr; field; lra).
    field. split; lra. }
  rewrite Hq in Hs.
  assert (Hq0 : 0 <= 4 / (a * a)).
  { apply Rlt_le, Rdiv_lt_0_compat; [lra|nra]. }
  assert (Hq1 : 1 <= 4 / (a * a)).
  { apply Rmult_le_reg_r with (a * a); [nra|].
    unfold Rdiv. rewrite Rmult_assoc, Rinv_l by nra. lra. }
  rewrite <- Hs, <- HV, <- Hu, H1, Hp in *.
  cbn [map np_sum fold_right] in H5. rewrite (sqrt_sqrt _ Hq0) in H5.
  split; [rewrite H5; lra|].
  rewrite H4, var_col4.
  unfold psi_update, np_maximum, row_op, scale_rows, msquare, col_sum, vmap2.
  cbn. rewrite (sqrt_sqrt _ Hq0). rewrite (Rmax_left (4 / (a * a) - 1) 0) by lra.
  f_equal. f_equal.
  set (w := sqrt (4 / (a * a) - 1)).
  assert (Hw : w * w = 4 / (a * a) - 1) by (apply sqrt_sqrt; lra).
  replace (4 - (w * 1 * a * (w * 1 * a) + 0)) with (4 - (w * w) * (a * a))
    by ring.
  rewrite Hw. field. lra.
Qed.

(** The first two iterations of a run on [X_col4]. *)
Lemma col4_two_iterations (self : FactorAnalysis) (w : rng_world) :
  reaches_loop self X_col4 -> (2 <= max_iter self)%Z ->
  exists r0 r1 rest,
    fit_trace (fit (L := column_library) self X_col4 w) = r0 :: r1 :: rest /\
    fit_iteration_ok (L := column_library) self X_col4 r0 /\
    fit_iteration_ok (L := column_library) self X_col4 r1 /\
    it_psi r0 = initial_psi self X_col4 /\
    it_psi r1 = psi_update (np_var (centred X_col4)) (it_W r0) /\
    it_old_ll r1 = Prev (it_ll r0).
Proof.
  intros Hreach Hmax.
  pose proof (fit_run (L := column_library) self X_col4 w Hreach)
    as (Hok & Hch & Hlen & _ & Hlast).
  destruct (fit_trace (fit self X_col4 w)) as [|r0 t].
  { cbn in Hlast. destruct Hlast as (Hn & _). lia. }
  destruct Hch as (Hp0 & Ho0 & Hf0 & Hch).
  assert (Hnf0 : fired (tol self) r0 = false).
  { unfold fired. rewrite Ho0. reflexivity. }
  destruct t as [|r1 t].
  { cbn in Hlast. destruct Hlast as (_ & _ & _ & Hfull).
    specialize (Hfull Hnf0). cbn in Hfull. lia. }
  destruct Hch as (Hp1 & Ho1 & _ & _).
  inversion Hok as [|? ? Hok0 Hok']; subst.
  inversion Hok' as [|? ? Hok1 _]; subst.
  exists r0, r1, t.
  split; [reflexivity|]. split; [exact Hok0|]. split; [exact Hok1|].
  split; [exact Hp0|]. split; [exact Hp1|exact Ho1].
Qed.

Lemma reaches_loop_negative_tol : reaches_loop fa_negative_tol X_col4.
Proof.
  split; [|left; reflexivity].
  intros init H. injection H as <-. reflexivity.
Qed.

Lemma reaches_loop_lapack (X : matrix) : reaches_loop fa_lapack X.
Proof. split; [intros init H; discriminate H|left; reflexivity]. Qed.

(** With [tol = -2] and initial variance [1e-24]: the second log-likelihood
    is below the first (by about [ln 4]), and the loop goes on. *)
Lemma decrease_without_stop :
  ~ stops_on_decrease (L := column_library) fa_negative_tol X_col4 world0.
Proof.
  intros H. unfold stops_on_decrease in H. cbn zeta in H.
  destruct (col4_two_iterations fa_negative_tol world0
              reaches_loop_negative_tol)
    as (r0 & r1 & rest & Ht & Hok0 & Hok1 & Hp0 & Hp1 & Ho1).
  { cbn. lia. }
  rewrite Ht in H. change (it_psi r0 = [1e-24]) in Hp0.
  assert (Hsm : SMALL = 1e-12) by reflexivity.
  assert (Hs0 : sqrt 1e-24 = 1e-12).
  { replace 1e-24 with (1e-12 * 1e-12) by lra. apply sqrt_square. lra. }
  assert (Hs1 : sqrt SMALL = 1e-6).
  { rewrite Hsm. replace 1e-12 with (1e-6 * 1e-6) by lra.
    apply sqrt_square. lra. }
  destruct (col4_iteration fa_negative_tol r0 _ eq_refl eq_refl Hok0 Hp0)
    as (Hll0 & Hpsi1); try (rewrite Hs0, Hsm; lra).
  rewrite Hs0, Hsm in Hll0, Hpsi1. rewrite Rmax_right in Hpsi1 by lra.
  rewrite Hpsi1 in Hp1. rewrite <- Hsm in Hp1.
  destruct (col4_iteration fa_negative_tol r1 _ eq_refl eq_refl Hok1 Hp1)
    as (Hll1 & _); try (rewrite Hs1, Hsm; lra).
  rewrite Hs1 in Hll1. rewrite Hsm in Hll1.
  set (A := 4 / ((1e-6 + 1e-12) * (1e-6 + 1e-12))) in *.
  set (B := 4 / ((1e-12 + 1e-12) * (1e-12 + 1e-12))) in *.
  assert (HA : 0 < A) by (unfold A; lra).
  assert (HB : 0 < B) by (unfold B; lra).
  assert (Hinc : ln B + ln 1e-24 < ln A + ln 1e-12).
  { rewrite <- !ln_mult by (assumption || lra).
    apply ln_increasing; [nra|]. unfold A, B. lra. }
  assert (Hln2 : ln 2 <= 1) by (pose proof (ln_le_pred 2); lra).
  assert (Hbound : ln A + ln 1e-12 - (ln B + ln 1e-24) <= 2).
  { rewrite <- !ln_mult by (assumption || lra).
    replace (B * 1e-24) with 1 by (unfold B; lra). rewrite ln_1.
    assert (Hlt : A * 1e-12 < 2 * 2) by (unfold A; lra).
    apply ln_increasing in Hlt; [|nra].
    rewrite (ln_mult 2 2) in Hlt by lra. lra. }
  destruct (H 1%nat r1 (it_ll r0) eq_refl Ho1) as (Hf1 & _).
  - rewrite Hll1, Hll0. lra.
  - unfold fired in Hf1. rewrite Ho1 in Hf1. cbn in Hf1.
    apply Rltb_true in Hf1. rewrite Hll1, Hll0 in Hf1. lra.
Qed.

(** With the default tolerance and initial variance the second iteration
    passes the test: the run has two iterations and leaves by [break]. *)
Lemma col4_default_run :
  let r := fit (L := column_library) fa_lapack X_col4 world0 in
  exists r0 r1, fit_trace r = [r0; r1] /\ fired (tol fa_lapack) r1 = true /\
                fit_outcome r = Returned tt /\ fit_warnings r = [].
Proof.
  cbn zeta.
  destruct (col4_two_iterations fa_lapack world0 (reaches_loop_lapack _))
    as (r0 & r1 & rest & Ht & Hok0 & Hok1 & Hp0 & Hp1 & Ho1).
  { cbn. lia. }
  cbn in Hp0.
  assert (Hsm : SMALL = 1e-12) by reflexivity.
  destruct (col4_iteration fa_lapack r0 _ eq_refl eq_refl Hok0 Hp0)
    as (Hll0 & Hpsi1); try (rewrite sqrt_1, Hsm; lra).
  rewrite sqrt_1, Hsm in Hll0, Hpsi1. rewrite Rmax_left in Hpsi1 by lra.
  rewrite ln_1 in Hll0. rewrite Hpsi1 in Hp1.
  assert (Hsq : sqrt ((1 + 1e-12) * (1 + 1e-12)) = 1 + 1e-12).
  { apply sqrt_square. lra. }
  destruct (col4_iteration fa_lapack r1 _ eq_refl eq_refl Hok1 Hp1)
    as (Hll1 & _); try (rewrite Hsq, Hsm; lra).
  rewrite Hsq, Hsm in Hll1.
  set (A := 4 / ((1 + 1e-12 + 1e-12) * (1 + 1e-12 + 1e-12))) in *.
  set (B := 4 / ((1 + 1e-12) * (1 + 1e-12))) in *.
  assert (HA : 0 < A) by (unfold A; lra).
  assert (HB : 0 < B) by (unfold B; lra).
  assert (Hinc : ln B < ln A + ln ((1 + 1e-12) * (1 + 1e-12))).
  { rewrite <- ln_mult by (assumption || lra).
    apply ln_increasing; [assumption|]. unfold A, B. lra. }
  assert (Hf1 : fired (tol fa_lapack) r1 = true).
  { unfold fired. rewrite Ho1. cbn. apply Rltb_true.
    rewrite Hll1, Hll0. lra. }
  pose proof (fit_run (L := column_library) fa_lapack X_col4 world0
                (reaches_loop_lapack _)) as (_ & Hch & _ & _ & Hlast).
  rewrite Ht in Hch, Hlast.
  destruct Hch as (_ & _ & _ & _ & _ & Hlast1 & _).
  destruct rest as [|r2 rest].
  - exists r0, r1. cbn [last_iteration] in Hlast.
    destruct Hlast as (Hout & _ & Hw & _).
    rewrite Hf1 in Hw. auto.
  - rewrite Hlast1 in Hf1 by discriminate. discriminate Hf1.
Qed.

(** C2, as stated, fails for a negative tolerance: with [tol = -2],
    [noise_variance_init = [1e-24]] and the data [[0], [4]], the
    log-likelihood of the second iteration is below that of the first, the
    difference is not below [tol], and a third iteration is executed. *)
Lemma decrease_does_not_always_stop :
  ~ stops_at_first_small_increase (L := column_library)
      fa_negative_tol X_col4 world0.
Proof.
  intros [_ H]. exact (decrease_without_stop H).
Qed.

(** ** Lists and arrays *)

Lemma nth_map_combine {A B C : Type} (f : A * B -> C) :
  forall (l1 : list A) (l2 : list B) (i : nat) (d1 : A) (d2 : B) (d : C),
    (i < length l1)%nat -> (i < length l2)%nat ->
    nth i (map f (combine l1 l2)) d = f (nth i l1 d1, nth i l2 d2).
Proof.
  induction l1 as [|a l1 IH]; intros l2 i d1 d2 d H1 H2; [cbn in H1; lia|].
  destruct l2 as [|b l2]; [cbn in H2; lia|].
  destruct i as [|i]; [reflexivity|].
  cbn in *. apply IH; lia.
Qed.

Lemma nth_map_lt {A B : Type} (f : A -> B) :
  forall (l : list A) (i : nat) (d : B) (d' : A),
    (i < length l)%nat -> nth i (map f l) d = f (nth i l d').
Proof.
  induction l as [|a l IH]; intros i d d' H; [cbn in H; lia|].
  destruct i as [|i]; [reflexivity|]. cbn in *. apply IH. lia.
Qed.

Lemma nth_vmap2 (f : R -> R -> R) (u v : vector) (i : nat) :
  (i < length u)%nat -> (i < length v)%nat ->
  nth i (vmap2 f u v) 0 = f (nth i u 0) (nth i v 0).
Proof.
  intros Hu Hv. unfold vmap2.
  rewrite (nth_map_combine _ u v i 0 0 0 Hu Hv). reflexivity.
Qed.

Lemma length_vmap2 (f : R -> R -> R) (u v : vector) :
  length (vmap2 f u v) = Nat.min (length u) (length v).
Proof.
  unfold vmap2. rewrite length_map, length_combine. reflexivity.
Qed.

(** ** The log-likelihood (C3) and the loading matrix (C4) *)





(** ** The floor of the noise variances (C5) *)

Lemma reaches_loop_init_zero : reaches_loop fa_init_zero X_col4.
Proof.
  split; [|left; reflexivity].
  intros init H. injection H as <-. reflexivity.
Qed.

(** C5, as stated, fails: with [noise_variance_init = [0.]] the first
    iteration reads [psi = [0.]], below the floor; the value is not clamped
    and no error is raised. *)
Lemma initial_psi_is_not_floored :
  ~ psi_floored_everywhere (L := column_library) fa_init_zero X_col4 world0.
Proof.
  intros [H _].
  pose proof (fit_run (L := column_library) fa_init_zero X_col4 world0
                reaches_loop_init_zero) as (_ & Hch & _ & _ & Hlast).
  destruct (fit_trace (fit fa_init_zero X_col4 world0)) as [|r0 t].
  - cbn in Hlast. destruct Hlast as (Hn & _). discriminate Hn.
  - destruct Hch as (Hp0 & _). cbn in Hp0.
    specialize (H r0 (or_introl eq_refl)). rewrite Hp0 in H.
    inversion H as [|? ? Hle _]; subst.
    pose proof SMALL_pos. lra.
Qed.

(** An iteration that passed the test has a predecessor, whose update
    produced the [psi] it read. *)
Lemma fired_has_predecessor var tol_ p t i rec :
  chained var tol_ p NegInf t -> nth_error t i = Some rec ->
  fired tol_ rec = true ->
  exists j prev, i = S j /\ nth_error t j = Some prev /\
                 it_psi rec = psi_update var (it_W prev).
Proof.
  intros Hc Hi Hf. destruct i as [|j].
  - destruct (chained_first _ _ _ _ _ _ Hc Hi) as (_ & Ho).
    unfold fired in Hf. rewrite Ho in Hf. discriminate Hf.
  - destruct (nth_error t j) as [prev|] eqn:E.
    + exists j, prev. split; [reflexivity|]. split; [exact E|].
      eapply chained_next; eauto.
    + apply nth_error_None in E.
      assert ((S j < length t)%nat) by (apply nth_error_Some; congruence).
      lia.
Qed.

(** The [noise_variance_] that [fit] stores comes from an update. *)
Lemma fit_stored_psi_floor {L : LinAlg} (self : FactorAnalysis) (X : matrix)
      (w : rng_world) (psi_ : vector) :
  reaches_loop self X ->
  fit_outcome (fit self X w) = Returned tt ->
  noise_variance_ (fit_self (fit self X w)) = Some psi_ ->
  Forall (Rle SMALL) psi_.
Proof.
  intros Hreach Hret Hpsi.
  pose proof (fit_run self X w Hreach) as (_ & Hch & _ & _ & Hlast).
  destruct (last_iteration (fit_trace (fit self X w))) as [rl|] eqn:El.
  - destruct Hlast as (_ & Hs & _). rewrite Hs in Hpsi. cbn in Hpsi.
    injection Hpsi as <-.
    destruct (fired (tol self) rl) eqn:Hf; [|apply psi_update_floor].
    pose proof (last_iteration_nth _ _ El) as Hn.
    destruct (fired_has_predecessor _ _ _ _ _ _ Hch Hn Hf)
      as (j & prev & _ & _ & Hp).
    rewrite Hp. apply psi_update_floor.
  - destruct Hlast as (_ & Ho & _). congruence.
Qed.

(** What the iterations of a call read: the first one the initial vector,
    the later ones a vector that comes from an update. *)
Lemma psi_read {L : LinAlg} (self : FactorAnalysis) (X : matrix)
      (w : rng_world) (i : nat) (rec : iteration) :
  nth_error (fit_trace (fit self X w)) i = Some rec ->
  match i with
  | O => it_psi rec = initial_psi self X
  | S _ => Forall (Rle SMALL) (it_psi rec)
  end.
Proof.
  intros Hi.
  pose proof (executed_reaches_loop self X w rec (nth_error_In _ _ Hi))
    as Hreach.
  pose proof (fit_run self X w Hreach) as (_ & Hch & _).
  destruct i as [|i].
  - eapply chained_first; eauto.
  - destruct (nth_error (fit_trace (fit self X w)) i) as [prev|] eqn:E.
    + destruct (chained_next _ _ _ _ _ _ _ _ Hch E Hi) as (_ & Hp & _).
      rewrite Hp. apply psi_update_floor.
    + apply nth_error_None in E.
      assert ((S i < length (fit_trace (fit self X w)))%nat)
        by (apply nth_error_Some; congruence).
      lia.
Qed.

(** C5 (amended): in every call of [fit], every [psi] read by the second and
    later iterations, and the [noise_variance_] stored when [fit] returns,
    has all its entries at least [SMALL]; the first iteration reads the
    initial vector as it is: the ones of the default, or the caller's
    values, which are neither clamped nor refused; when these are at least
    [SMALL], so is every [psi] read.  A caller's vector of the right length
    whose entries are not negative (zero, or any value below [SMALL],
    included) is accepted: with a supported strategy and [max_iter] at
    least 1 the call returns, its first iteration has read the vector
    unchanged, and the [noise_variance_] it stores is at least [SMALL]
    everywhere. *)
Theorem psi_floor {L : LinAlg} (self : FactorAnalysis) (X : matrix)
        (w : rng_world) :
  let r := fit self X w in
  (forall i rec, nth_error (fit_trace r) (S i) = Some rec ->
                 Forall (Rle SMALL) (it_psi rec)) /\
  (forall rec, nth_error (fit_trace r) 0 = Some rec ->
               it_psi rec = initial_psi self X) /\
  (noise_variance_init self = None ->
   Forall (Rle SMALL) (initial_psi self X)) /\
  (Forall (Rle SMALL) (initial_psi self X) ->
   forall rec, In rec (fit_trace r) -> Forall (Rle SMALL) (it_psi rec)) /\
  (forall psi_, fit_outcome r = Returned tt ->
                noise_variance_ (fit_self r) = Some psi_ ->
                Forall (Rle SMALL) psi_) /\
  (forall init,
      noise_variance_init self = Some init ->
      length init = ncols X ->
      Forall (Rle 0) init ->
      svd_method self = "lapack"%string \/
      svd_method self = "randomized"%string ->
      (1 <= max_iter self)%Z ->
      fit_outcome r = Returned tt /\
      exists rec psi_,
        nth_error (fit_trace r) 0 = Some rec /\ it_psi rec = init /\
        noise_variance_ (fit_self r) = Some psi_ /\
        Forall (Rle SMALL) psi_).
Proof.
  cbn zeta.
  split; [intros i rec Hi; exact (psi_read self X w (S i) rec Hi)|].
  split; [intros rec Hi; exact (psi_read self X w 0 rec Hi)|].
  split; [|split; [|split]].
  - intros Hnone. unfold initial_psi. rewrite Hnone.
    apply Forall_forall. intros x Hx. apply repeat_spec in Hx. subst x.
    unfold SMALL. lra.
  - intros Hinit rec Hin. apply In_nth_error in Hin. destruct Hin as [i Hi].
    pose proof (psi_read self X w i rec Hi) as Hr.
    destruct i as [|i]; [rewrite Hr; exact Hinit|exact Hr].
  - intros psi_ Hret Hpsi.
    exact (fit_stored_psi_floor self X w psi_
             (returned_reaches_loop self X w Hret) Hret Hpsi).
  - intros init Hinit Hlen _ Hm Hmax.
    assert (Hreach : reaches_loop self X).
    { split; [|exact Hm]. intros init' H'. rewrite Hinit in H'.
      injection H' as <-. exact Hlen. }
    pose proof (fit_run self X w Hreach) as (_ & _ & _ & _ & Hlast).
    destruct (last_iteration (fit_trace (fit self X w))) as [rl|] eqn:El.
    + destruct Hlast as (Ho & Hs & _). split; [exact Ho|].
      assert (Hfirst : exists rec,
                 nth_error (fit_trace (fit self X w)) 0 = Some rec).
      { destruct (fit_trace (fit self X w)) as [|r0 t];
          [discriminate El|exists r0; reflexivity]. }
      destruct Hfirst as (r0 & H0).
      exists r0, (if fired (tol self) rl then it_psi rl
                   else psi_update (np_var (centred X)) (it_W rl)).
      split; [exact H0|].
      split.
      { rewrite (psi_read self X w 0 r0 H0). unfold initial_psi.
        rewrite Hinit. reflexivity. }
      assert (Hpsi : noise_variance_ (fit_self (fit self X w))
                     = Some (if fired (tol self) rl then it_psi rl
                           else psi_update (np_var (centred X))
                                           (it_W rl)))
        by (rewrite Hs; reflexivity).
      split; [exact Hpsi|].
      exact (fit_stored_psi_floor self X w _ Hreach Ho Hpsi).
    + destruct Hlast as (Hn & _). lia.
Qed.

Lemma psi_floor_witness :
  fit_outcome (fit (L := column_library) fa_init_zero X_col4 world0)
  = Returned tt /\
  exists rec psi_,
    nth_error (fit_trace (fit (L := column_library) fa_init_zero X_col4
                              world0)) 0 = Some rec /\
    it_psi rec = [0] /\
    noise_variance_ (fit_self (fit (L := column_library) fa_init_zero X_col4
                                   world0)) = Some psi_ /\
    Forall (Rle SMALL) psi_.
Proof.
  destruct (psi_floor (L := column_library) fa_init_zero X_col4 world0)
    as (_ & _ & _ & _ & _ & H6).
  apply (H6 [0] eq_refl eq_refl).
  - constructor; [lra|constructor].
  - left. reflexivity.
  - cbn. lia.
Defined.

(** ** What a run that converges stores (C10) *)

(** C10: when [fit] returns after leaving the loop by [break] (no convergence
    warning), [components_] is the loading matrix of the last iteration,
    computed from the [psi] that iteration read, and [noise_variance_] is
    that same [psi]: the update of the iteration before, not the update that
    the last loading matrix would give.  There is always an iteration before,
    since the first one cannot pass the test. *)
Theorem converged_model_skips_last_update {L : LinAlg} (self : FactorAnalysis)
        (X : matrix) (w : rng_world) :
  let r := fit self X w in
  fit_outcome r = Returned tt -> fit_warnings r = [] ->
  exists j prev last,
    S (S j) = length (fit_trace r) /\
    nth_error (fit_trace r) j = Some prev /\
    nth_error (fit_trace r) (S j) = Some last /\
    fired (tol self) last = true /\
    fit_iteration_ok self X last /\
    components_ (fit_self r) = Some (it_W last) /\
    noise_variance_ (fit_self r) = Some (it_psi last) /\
    it_psi last = psi_update (np_var (centred X)) (it_W prev).
Proof.
  cbn zeta. intros Hret Hwarn.
  pose proof (returned_reaches_loop self X w Hret) as Hreach.
  pose proof (fit_run self X w Hreach) as (Hok & Hch & _ & _ & Hlast).
  set (t := fit_trace (fit self X w)) in *.
  destruct (last_iteration t) as [rl|] eqn:El.
  - destruct Hlast as (_ & Hs & Hw & _).
    destruct (fired (tol self) rl) eqn:Hf.
    + pose proof (last_iteration_nth _ _ El) as Hn.
      destruct (fired_has_predecessor _ _ _ _ _ _ Hch Hn Hf)
        as (j & prev & Hj & Hprev & Hp).
      assert (Hlen : (length t - 1 < length t)%nat)
        by (apply nth_error_Some; congruence).
      rewrite Hj in Hn.
      exists j, prev, rl.
      split; [lia|]. split; [exact Hprev|]. split; [exact Hn|].
      split; [exact Hf|].
      split; [exact (proj1 (Forall_forall _ _) Hok rl (nth_error_In _ _ Hn))|].
      rewrite Hs. cbn. auto.
    + rewrite Hw in Hwarn. discriminate Hwarn.
  - destruct Hlast as (_ & Ho & _). congruence.
Qed.

Lemma converged_model_skips_last_update_witness :
  exists j prev last,
    S (S j) = length (fit_trace (fit (L := column_library) fa_lapack X_col4 world0)) /\
    nth_error (fit_trace (fit (L := column_library) fa_lapack X_col4 world0)) j
    = Some prev /\
    nth_error (fit_trace (fit (L := column_library) fa_lapack X_col4 world0)) (S j)
    = Some last /\
    fired (tol fa_lapack) last = true /\
    fit_iteration_ok (L := column_library) fa_lapack X_col4 last /\
    components_ (fit_self (fit (L := column_library) fa_lapack X_col4 world0))
    = Some (it_W last) /\
    noise_variance_ (fit_self (fit (L := column_library) fa_lapack X_col4 world0))
    = Some (it_psi last) /\
    it_psi last = psi_update (np_var (centred X_col4)) (it_W prev).
Proof.
  destruct col4_default_run as (r0 & r1 & _ & _ & Hret & Hwarn).
  apply (converged_model_skips_last_update (L := column_library)
           fa_lapack X_col4 world0).
  - exact Hret.
  - exact Hwarn.
Defined.

(** ** Shapes *)

Lemma length_col_sum (M : matrix) :
  wf_matrix M -> length (col_sum M) = ncols M.
Proof.
  unfold wf_matrix, col_sum. induction 1 as [|r rs Hr _ IH]; cbn.
  - apply repeat_length.
  - rewrite length_vmap2, IH, Hr. apply Nat.min_id.
Qed.

Lemma length_np_mean (M : matrix) :
  wf_matrix M -> length (np_mean M) = ncols M.
Proof.
  intros H. unfold np_mean. rewrite length_map. apply length_col_sum, H.
Qed.

Lemma wf_row_op (f : R -> R -> R) (M : matrix) (v : vector) :
  wf_matrix M -> length v = ncols M -> wf_matrix (row_op f M v).
Proof.
  unfold wf_matrix, row_op. cbn. intros H Hv.
  apply Forall_map. eapply Forall_impl; [|exact H].
  cbn. intros r Hr. rewrite length_vmap2, Hr, Hv. apply Nat.min_id.
Qed.

Lemma wf_msquare (M : matrix) : wf_matrix M -> wf_matrix (msquare M).
Proof.
  unfold wf_matrix, msquare. cbn. intros H.
  apply Forall_map. eapply Forall_impl; [|exact H].
  cbn. intros r Hr. rewrite length_map. exact Hr.
Qed.

Lemma wf_centred (X : matrix) : wf_matrix X -> wf_matrix (centred X).
Proof.
  intros H. apply wf_row_op; [exact H|apply length_np_mean, H].
Qed.

Lemma length_np_var (M : matrix) :
  wf_matrix M -> length (np_var M) = ncols M.
Proof.
  intros H. unfold np_var.
  rewrite length_np_mean; [reflexivity|].
  apply wf_msquare, wf_row_op; [exact H|apply length_np_mean, H].
Qed.

Lemma length_psi_update (var : vector) (W_ : matrix) :
  wf_matrix W_ -> length var = ncols W_ ->
  length (psi_update var W_) = ncols W_.
Proof.
  intros HW Hv. unfold psi_update, np_maximum.
  rewrite length_map, length_vmap2, Hv.
  rewrite (length_col_sum (msquare W_) (wf_msquare _ HW)). cbn.
  apply Nat.min_id.
Qed.

Lemma Forall_firstn {A : Type} (P : A -> Prop) (k : nat) (l : list A) :
  Forall P l -> Forall P (firstn k l).
Proof.
  intros H. revert k. induction H as [|x l Hx _ IH]; intros k.
  - destruct k; constructor.
  - destruct k; cbn; constructor; auto.
Qed.

Section Shapes.
Context {L : LinAlg}.
Hypothesis Hsvd : svd_shapes L.
Variables (self : FactorAnalysis) (X : matrix).
Hypothesis HX : wf_matrix X.

(** The loading matrix of an iteration that read a [psi] of length
    [n_features]. *)
Lemma iteration_shapes (r : iteration) :
  fit_iteration_ok self X r -> length (it_psi r) = ncols X ->
  wf_matrix (it_W r) /\ ncols (it_W r) = ncols X /\
  ((n_components_of self X <= Nat.min (nrows X) (ncols X))%nat ->
   nrows (it_W r) = n_components_of self X).
Proof.
  intros (H1 & H2 & H3 & H4 & H5) Hp.
  assert (Hsp : length (it_sqrt_psi r) = ncols X).
  { rewrite H1, length_map. exact Hp. }
  assert (Hin : wf_matrix (it_input r) /\ ncols (it_input r) = ncols X /\
                nrows (it_input r) = nrows X).
  { rewrite H2. split; [|split].
    - apply wf_row_op; [apply wf_centred, HX|].
      rewrite length_map. exact Hsp.
    - reflexivity.
    - unfold nrows, row_op, centred. cbn. rewrite !length_map. reflexivity. }
  destruct Hin as (Hwf & Hnc & Hnr).
  assert (HV : nrows (it_V r) = length (it_s r) /\ ncols (it_V r) = ncols X /\
               wf_matrix (it_V r) /\
               ((n_components_of self X <= Nat.min (nrows X) (ncols X))%nat ->
                length (it_s r) = n_components_of self X)).
  { destruct Hsvd as [Hlap Hrand]. unfold fit_decomp in H3.
    destruct (String.eqb (svd_method self) "lapack").
    - specialize (Hlap (it_input r) Hwf). unfold my_svd_lapack in H3.
      destruct (linalg_svd (it_input r)) as [s0 V0].
      destruct Hlap as (Hs0 & HV0 & Hc0 & Hw0).
      injection H3 as <- <- _. unfold nrows in *. cbn.
      rewrite !length_firstn, HV0, Hs0, Hnr, Hnc.
      split; [reflexivity|]. split; [congruence|]. split.
      + unfold wf_matrix. cbn. apply Forall_firstn. exact Hw0.
      + intros Hk. apply Nat.min_l. exact Hk.
    - destruct H3 as (g & g' & H3). unfold my_svd_randomized in H3.
      specialize (Hrand (it_input r) (n_components_of self X) g
                        (iterated_power self) Hwf).
      destruct (randomized_svd (it_input r) (n_components_of self X) g
                               (iterated_power self)) as [[s0 V0] g0].
      destruct Hrand as (HV0 & Hc0 & Hw0 & Hk0).
      injection H3 as <- <- _ _.
      split; [exact HV0|]. split; [congruence|]. split; [exact Hw0|].
      intros Hk. apply Hk0. rewrite Hnr, Hnc. exact Hk. }
  destruct HV as (HVr & HVc & HVw & Hk).
  split; [|split].
  - rewrite H4. unfold wf_matrix, row_op, scale_rows. cbn.
    apply Forall_map, Forall_map. apply Forall_forall. intros [c v] Hcv.
    cbn. apply in_combine_r in Hcv.
    pose proof (proj1 (Forall_forall _ _) HVw v Hcv) as Hv. cbn in Hv.
    rewrite length_map, length_combine, length_map, Hv, Hsp, HVc.
    apply Nat.min_id.
  - rewrite H4. cbn. exact HVc.
  - intros Hle. rewrite H4. unfold nrows, row_op, scale_rows. cbn.
    rewrite !length_map, length_combine, !length_map.
    unfold nrows in HVr. rewrite HVr, Nat.min_id. apply Hk, Hle.
Qed.

(** Every iteration of a chain reads a [psi] of length [n_features]. *)
Lemma chained_psi_length tol_ : forall t p o,
  chained (np_var (centred X)) tol_ p o t ->
  Forall (fit_iteration_ok self X) t ->
  length p = ncols X ->
  Forall (fun r => length (it_psi r) = ncols X) t.
Proof.
  induction t as [|r t IH]; intros p o Hc Hok Hp; [constructor|].
  destruct Hc as (Hpr & _ & _ & Hc).
  inversion Hok as [|? ? Hr Hok']; subst.
  constructor; [exact Hp|].
  destruct (iteration_shapes r Hr Hp) as (HW & HWc & _).
  eapply IH; [exact Hc|exact Hok'|].
  rewrite length_psi_update; [exact HWc|exact HW|].
  rewrite length_np_var by (apply wf_centred, HX). rewrite HWc. reflexivity.
Qed.

Lemma length_initial_psi :
  reaches_loop self X -> length (initial_psi self X) = ncols X.
Proof.
  intros [Hinit _]. unfold initial_psi.
  destruct (noise_variance_init self) as [init|].
  - apply Hinit. reflexivity.
  - apply repeat_length.
Qed.

(** The model that [fit] returns has the shapes of the data; the number of
    rows of [components_] is [n_components] when the data have that many
    rows and columns. *)
Lemma fit_returns_shapes (w : rng_world) :
  reaches_loop self X ->
  fit_outcome (fit self X w) = Returned tt ->
  exists k, fitted_shapes (fit_self (fit self X w)) k (ncols X) /\
            ((n_components_of self X <= Nat.min (nrows X) (ncols X))%nat ->
             k = n_components_of self X).
Proof.
  intros Hreach Hret.
  pose proof (fit_run self X w Hreach) as (Hok & Hch & _ & _ & Hlast).
  pose proof (chained_psi_length _ _ _ _ Hch Hok (length_initial_psi Hreach))
    as Hlen.
  destruct (last_iteration (fit_trace (fit self X w))) as [rl|] eqn:El.
  - destruct Hlast as (_ & Hs & _).
    pose proof (last_iteration_In _ _ El) as Hin.
    pose proof (proj1 (Forall_forall _ _) Hok rl Hin) as Hrl.
    pose proof (proj1 (Forall_forall _ _) Hlen rl Hin) as Hprl.
    destruct (iteration_shapes rl Hrl Hprl) as (HW & HWc & HWr).
    exists (nrows (it_W rl)). split; [|exact HWr].
    rewrite Hs. unfold fitted_shapes.
    cbn [mean_ components_ noise_variance_ set_fitted set_mean_].
    eexists _, _, _. split; [reflexivity|]. split; [reflexivity|].
    split; [reflexivity|].
    split; [apply length_np_mean, HX|]. split; [reflexivity|].
    split; [exact HWc|]. split; [exact HW|].
    destruct (fired (tol self) rl); [exact Hprl|].
    rewrite length_psi_update; [exact HWc|exact HW|].
    rewrite length_np_var by (apply wf_centred, HX). rewrite HWc. reflexivity.
  - destruct Hlast as (_ & Ho & _). congruence.
Qed.
End Shapes.

(** ** Exhaustion of the iteration budget (C6) *)

Lemma reaches_loop_no_init (self : FactorAnalysis) (X : matrix) :
  noise_variance_init self = None -> svd_method self = "lapack"%string ->
  reaches_loop self X.
Proof.
  intros Hi Hm. split; [|left; exact Hm].
  intros init H. rewrite Hi in H. discriminate H.
Qed.

(** With [max_iter=0] the loop body never runs: the warning is issued and the
    assignment of [components_] finds [W] unbound. *)
Lemma fit_without_iteration_raises :
  let r := fit (L := column_library) fa_no_iteration X_col4 world0 in
  fit_trace r = [] /\ fit_outcome r = Raised (UnboundLocalError "W") /\
  fit_warnings r = [ConvergenceWarning].
Proof.
  cbn zeta.
  pose proof (fit_run (L := column_library) fa_no_iteration X_col4 world0
                (reaches_loop_no_init fa_no_iteration X_col4 eq_refl eq_refl))
    as (_ & _ & Hlen & _ & Hlast).
  destruct (fit_trace (fit fa_no_iteration X_col4 world0)) as [|r0 t].
  - cbn [last_iteration] in Hlast. destruct Hlast as (_ & Ho & Hw & _). auto.
  - cbn in Hlen. lia.
Qed.

(** With a single sample of two features the exact decomposition has one
    singular vector, and [components_] one row, where [n_components] is 2. *)
Lemma fit_single_sample_has_one_component :
  let r := fit (L := column_library) fa_one_iteration X_1x2 world0 in
  exists r0 W_,
    fit_trace r = [r0] /\ fired (tol fa_one_iteration) r0 = false /\
    fit_outcome r = Returned tt /\
    components_ (fit_self r) = Some W_ /\ nrows W_ = 1%nat /\
    n_components_of fa_one_iteration X_1x2 = 2%nat.
Proof.
  cbn zeta.
  pose proof (fit_run (L := column_library) fa_one_iteration X_1x2 world0
                (reaches_loop_no_init fa_one_iteration X_1x2 eq_refl eq_refl))
    as (Hok & Hch & Hlen & _ & Hlast).
  destruct (fit_trace (fit fa_one_iteration X_1x2 world0)) as [|r0 t].
  { cbn [last_iteration] in Hlast. destruct Hlast as (Hn & _).
    discriminate Hn. }
  destruct t as [|r1 t]; [|cbn in Hlen; lia].
  destruct Hch as (Hp & Ho & _).
  assert (Hnf : fired (tol fa_one_iteration) r0 = false).
  { unfold fired. rewrite Ho. reflexivity. }
  cbn [last_iteration] in Hlast. destruct Hlast as (Hout & Hs & _).
  exists r0, (it_W r0).
  split; [reflexivity|]. split; [exact Hnf|]. split; [exact Hout|].
  split; [rewrite Hs; reflexivity|]. split; [|reflexivity].
  inversion Hok as [|? ? (H1 & H2 & H3 & H4 & H5) _]; subst.
  change (it_psi r0 = [1; 1]) in Hp.
  rewrite Hp in H1. cbn [map] in H1. rewrite H1 in H2.
  unfold fit_decomp in H3.
  change (my_svd_lapack (L := column_library) 2 (it_input r0) tt
          = (it_s r0, it_V r0, it_unexp_var r0, tt)) in H3.
  rewrite H2 in H3. unfold my_svd_lapack in H3.
  change (@linalg_svd column_library
            (row_op Rdiv (centred X_1x2)
                    (map (fun q => q * sqrt (INR (nrows X_1x2)))
                         [sqrt 1 + SMALL; sqrt 1 + SMALL])))
    with (repeat 0 1, mkMatrix 2 (firstn 1 (rows (np_eye 2)))) in H3.
  injection H3 as Hs3 HV3 _.
  rewrite H4, <- Hs3, <- HV3. reflexivity.
Qed.

(** C6, as stated, fails: with [max_iter=0] no iteration passes the test,
    yet [fit] raises instead of returning a model; and with a single sample
    of two features [components_] has one row, not [n_components] = 2. *)
Lemma exhaustion_without_model :
  ~ exhaustion_returns_model (L := column_library)
      fa_no_iteration X_col4 world0 /\
  ~ exhaustion_returns_model (L := column_library)
      fa_one_iteration X_1x2 world0.
Proof.
  split; intros H; unfold exhaustion_returns_model in H; cbn zeta in H.
  - destruct fit_without_iteration_raises as (Ht & Ho & _).
    rewrite Ht in H. destruct H as (Hret & _).
    + intros rec [].
    + reflexivity.
    + rewrite Ho in Hret. discriminate Hret.
  - destruct fit_single_sample_has_one_component
      as (r0 & W_ & Ht & Hnf & _ & HW & Hrows & Hk).
    rewrite Ht in H. destruct H as (_ & _ & Hshape & _).
    + intros rec [<-|[]]. exact Hnf.
    + reflexivity.
    + destruct Hshape as (mu & W' & psi' & _ & HW' & _ & _ & Hr & _).
      rewrite HW in HW'. injection HW' as <-. rewrite Hk in Hr.
      rewrite Hrows in Hr. discriminate Hr.
Qed.

(** C6 (amended): in a call with [max_iter >= 1] and with
    [n_components <= min(n_samples, n_features)], so that the decomposition
    returns [n_components] singular vectors, when all [max_iter] iterations
    are executed and none passes the convergence test [fit] issues the
    convergence warning and returns: [components_] is [n_components] by
    [n_features], [noise_variance_] and [mean_] have length [n_features],
    and [loglike_] has one entry for each of the [max_iter] iterations. *)
Theorem exhausted_fit_returns_model {L : LinAlg} (self : FactorAnalysis)
        (X : matrix) (w : rng_world) :
  svd_shapes L -> wf_matrix X ->
  (1 <= max_iter self)%Z ->
  (n_components_of self X <= Nat.min (nrows X) (ncols X))%nat ->
  exhaustion_returns_model self X w.
Proof.
  intros Hsvd HX Hmax Hk. unfold exhaustion_returns_model. cbn zeta.
  intros Hnf Hlen.
  assert (Hreach : reaches_loop self X).
  { destruct (fit_trace (fit self X w)) as [|r0 t] eqn:Et.
    - cbn in Hlen. lia.
    - apply (executed_reaches_loop self X w r0). rewrite Et. left.
      reflexivity. }
  pose proof (fit_run self X w Hreach) as (_ & _ & _ & _ & Hlast).
  destruct (last_iteration (fit_trace (fit self X w))) as [rl|] eqn:El.
  - destruct Hlast as (Hout & Hs & Hw & _).
    rewrite (Hnf rl (last_iteration_In _ _ El)) in Hw.
    split; [exact Hout|]. split; [exact Hw|]. split.
    + destruct (fit_returns_shapes Hsvd self X HX w Hreach Hout)
        as (k & Hsh & Hkk).
      rewrite <- (Hkk Hk). exact Hsh.
    + exists (map it_ll (fit_trace (fit self X w))).
      split; [rewrite Hs; reflexivity|].
      rewrite length_map, Hlen. split; [|reflexivity].
      intros Hnil. apply (f_equal (@length R)) in Hnil.
      rewrite length_map, Hlen in Hnil. cbn in Hnil. lia.
  - apply last_iteration_None in El. rewrite El in Hlen. cbn in Hlen. lia.
Qed.

(** ** Sums *)

Lemma np_sum_cons (x : R) (l : vector) : np_sum (x :: l) = x + np_sum l.
Proof. reflexivity. Qed.

Lemma np_sum_nil : np_sum [] = 0.
Proof. reflexivity. Qed.

Ltac sum_step := cbn [map]; rewrite ?np_sum_cons, ?np_sum_nil.

Lemma np_sum_ext {A : Type} (f g : A -> R) (l : list A) :
  (forall a, In a l -> f a = g a) -> np_sum (map f l) = np_sum (map g l).
Proof.
  induction l as [|a l IH]; intros H; [reflexivity|].
  sum_step. rewrite (H a (or_introl eq_refl)), IH; [reflexivity|].
  intros b Hb. apply H. right. exact Hb.
Qed.

Lemma np_sum_plus {A : Type} (f g : A -> R) (l : list A) :
  np_sum (map (fun a => f a + g a) l) = np_sum (map f l) + np_sum (map g l).
Proof.
  induction l as [|a l IH]; sum_step; [lra|]. rewrite IH. lra.
Qed.

Lemma np_sum_scal_l {A : Type} (c : R) (f : A -> R) (l : list A) :
  np_sum (map (fun a => c * f a) l) = c * np_sum (map f l).
Proof.
  induction l as [|a l IH]; sum_step; [lra|]. rewrite IH. lra.
Qed.

Lemma np_sum_scal_r {A : Type} (c : R) (f : A -> R) (l : list A) :
  np_sum (map (fun a => f a * c) l) = np_sum (map f l) * c.
Proof.
  induction l as [|a l IH]; sum_step; [lra|]. rewrite IH. lra.
Qed.

Lemma np_sum_zero {A : Type} (l : list A) :
  np_sum (map (fun _ => 0) l) = 0.
Proof.
  induction l as [|a l IH]; sum_step; [reflexivity|]. rewrite IH. lra.
Qed.

Lemma np_sum_swap {A B : Type} (F : A -> B -> R) (l1 : list A) (l2 : list B) :
  np_sum (map (fun a => np_sum (map (fun b => F a b) l2)) l1)
  = np_sum (map (fun b => np_sum (map (fun a => F a b) l1)) l2).
Proof.
  induction l1 as [|a l1 IH]; sum_step.
  - rewrite np_sum_zero. reflexivity.
  - rewrite IH, <- np_sum_plus. reflexivity.
Qed.

Lemma np_sum_nonneg {A : Type} (f : A -> R) (l : list A) :
  (forall a, In a l -> 0 <= f a) -> 0 <= np_sum (map f l).
Proof.
  induction l as [|a l IH]; intros H; sum_step; [lra|].
  pose proof (H a (or_introl eq_refl)).
  assert (0 <= np_sum (map f l)) by (apply IH; intros b Hb; apply H; right; exact Hb).
  lra.
Qed.

(** The sum of a sequence that vanishes off [i]. *)
Lemma np_sum_delta (g : nat -> R) (i : nat) : forall n s,
  (s <= i < s + n)%nat ->
  np_sum (map (fun j => if Nat.eqb i j then g j else 0) (seq s n)) = g i.
Proof.
  induction n as [|n IH]; intros s H; [lia|].
  cbn [seq]. sum_step. destruct (Nat.eqb_spec i s) as [->|Hne].
  - rewrite (np_sum_ext _ (fun _ => 0)), np_sum_zero; [lra|].
    intros j Hj. apply in_seq in Hj.
    destruct (Nat.eqb_spec s j); [lia|reflexivity].
  - rewrite IH by lia. lra.
Qed.

(** [np.dot] of two columns is the sum over the rows. *)
Lemma np_dot1_cols (M : matrix) (i j : nat) :
  np_dot1 (col M i) (col M j)
  = np_sum (map (fun r => nth i r 0 * nth j r 0) (rows M)).
Proof.
  unfold np_dot1, col, vmap2. induction (rows M) as [|r rs IH]; [reflexivity|].
  cbn [map combine fst snd]. rewrite !np_sum_cons, IH. reflexivity.
Qed.

(** ** [get_covariance] (C7) *)

(** In an [n] by [n] array the flat positions that are multiples of [n + 1]
    are those of the diagonal. *)
Lemma diagonal_stride (n i j : nat) :
  (i < n)%nat -> (j < n)%nat ->
  Nat.eqb ((i * n + j) mod (n + 1)) 0 = Nat.eqb i j /\
  ((i * n + i) / (n + 1))%nat = i.
Proof.
  intros Hi Hj. split.
  - destruct (Nat.eqb_spec i j) as [->|Hne].
    + replace (j * n + j)%nat with (j * (n + 1))%nat by lia.
      rewrite Nat.Div0.mod_mul. reflexivity.
    + apply Nat.eqb_neq.
      destruct (Nat.lt_ge_cases i j) as [Hlt|Hge].
      * rewrite <- (Nat.mod_unique (i * n + j) (n + 1) i (j - i)); lia.
      * rewrite <- (Nat.mod_unique (i * n + j) (n + 1) (i - 1) (n + 1 + j - i));
          nia.
  - replace (i * n + i)%nat with (i * (n + 1))%nat by lia.
    apply Nat.div_mul. lia.
Qed.

(** The quadratic form of [W^T W] is a sum of squares. *)
Lemma gram_quad (W_ : matrix) (x : vector) (n : nat) :
  np_sum (map (fun i =>
                 np_sum (map (fun j => nth i x 0 * gram W_ i j * nth j x 0)
                             (seq 0 n)))
              (seq 0 n))
  = np_sum (map (fun r =>
                   np_sum (map (fun i => nth i x 0 * nth i r 0) (seq 0 n))
                   * np_sum (map (fun i => nth i x 0 * nth i r 0) (seq 0 n)))
                (rows W_)).
Proof.
  set (Y := fun r : vector =>
              np_sum (map (fun i => nth i x 0 * nth i r 0) (seq 0 n))).
  transitivity
    (np_sum (map (fun i =>
                    np_sum (map (fun r => nth i x 0 * nth i r 0 * Y r)
                                (rows W_)))
                 (seq 0 n))).
  - apply np_sum_ext. intros i _.
    transitivity
      (np_sum (map (fun j =>
                      np_sum (map (fun r => nth i x 0 * nth i r 0
                                            * (nth j x 0 * nth j r 0))
                                  (rows W_)))
                   (seq 0 n))).
    + apply np_sum_ext. intros j _. unfold gram.
      rewrite <- np_sum_scal_l, <- np_sum_scal_r.
      apply np_sum_ext. intros r _. ring.
    + rewrite np_sum_swap. apply np_sum_ext. intros r _.
      rewrite np_sum_scal_l. reflexivity.
  - rewrite np_sum_swap. apply np_sum_ext. intros r _.
    rewrite np_sum_scal_r. reflexivity.
Qed.

Section Covariance.
Variables (W_ : matrix) (psi_ : vector).

Lemma rows_gram :
  rows (np_dot (np_T W_) W_)
  = map (fun i => map (fun j => gram W_ i j) (seq 0 (ncols W_)))
        (seq 0 (ncols W_)).
Proof.
  unfold np_dot, np_T. cbn [rows ncols]. rewrite map_map.
  apply map_ext. intros i. apply map_ext. intros j. apply np_dot1_cols.
Qed.

Lemma nrows_gram : nrows (np_dot (np_T W_) W_) = ncols W_.
Proof.
  unfold nrows. rewrite rows_gram, length_map, length_seq. reflexivity.
Qed.

Lemma ncols_gram : ncols (np_dot (np_T W_) W_) = ncols W_.
Proof. reflexivity. Qed.

Lemma cov_of_shape :
  nrows (cov_of W_ psi_) = ncols W_ /\ ncols (cov_of W_ psi_) = ncols W_ /\
  wf_matrix (cov_of W_ psi_).
Proof.
  unfold cov_of, flat_stride_iadd, wf_matrix.
  rewrite nrows_gram, ncols_gram, rows_gram. unfold nrows. cbn [rows ncols].
  split; [|split].
  - rewrite length_map, length_combine, length_seq, !length_map, length_seq.
    apply Nat.min_id.
  - reflexivity.
  - apply Forall_map. apply Forall_forall. intros [i r] Hir. cbn [fst snd].
    apply in_combine_r in Hir. apply in_map_iff in Hir.
    destruct Hir as (i' & <- & _).
    rewrite length_map, length_combine, length_seq, !length_map, length_seq.
    apply Nat.min_id.
Qed.

(** The entries of the array returned: [W^T W], with [psi] added on the
    diagonal. *)
Lemma cov_of_entry (i j : nat) :
  (i < ncols W_)%nat -> (j < ncols W_)%nat ->
  entry (cov_of W_ psi_) i j = gram W_ i j + (if Nat.eqb i j then nth i psi_ 0 else 0).
Proof.
  intros Hi Hj. unfold entry, cov_of, flat_stride_iadd.
  rewrite nrows_gram, ncols_gram, rows_gram. cbn [rows ncols].
  set (n := ncols W_) in *.
  rewrite (nth_map_combine (A := nat) (B := list R) (C := list R) _
             (seq 0 n) _ i 0%nat [] [])
    by (rewrite ?length_map, length_seq; exact Hi).
  cbn [fst snd].
  rewrite (nth_map_lt _ (seq 0 n) i [] 0%nat) by (rewrite length_seq; exact Hi).
  rewrite !seq_nth by assumption. cbn [Nat.add].
  rewrite length_map, length_seq.
  rewrite (nth_map_combine (A := nat) (B := R) (C := R) _
             (seq 0 n) _ j 0%nat 0 0)
    by (rewrite ?length_map, length_seq; exact Hj).
  cbn [fst snd].
  rewrite (nth_map_lt _ (seq 0 n) j 0 0%nat) by (rewrite length_seq; exact Hj).
  rewrite !seq_nth by assumption. cbn [Nat.add].
  destruct (diagonal_stride n i j Hi Hj) as [Hmod Hdiv].
  rewrite Hmod. destruct (Nat.eqb_spec i j) as [->|Hne].
  - destruct (diagonal_stride n j j Hj Hj) as [_ Hd]. rewrite Hd. reflexivity.
  - lra.
Qed.

Lemma cov_of_symmetric : symmetric (cov_of W_ psi_).
Proof.
  intros i j Hi Hj. destruct cov_of_shape as (Hn & _).
  rewrite Hn in Hi, Hj. rewrite !cov_of_entry by assumption.
  rewrite (Nat.eqb_sym j i). destruct (Nat.eqb_spec i j) as [->|_].
  - reflexivity.
  - f_equal. unfold gram. apply np_sum_ext. intros r _. ring.
Qed.

Lemma cov_of_psd :
  Forall (Rle 0) psi_ -> length psi_ = ncols W_ ->
  positive_semidefinite (cov_of W_ psi_).
Proof.
  intros Hpsi Hlen x Hx. destruct cov_of_shape as (Hn & _).
  rewrite Hn in Hx. unfold quad_form. rewrite Hx.
  set (n := ncols W_) in *.
  rewrite (np_sum_ext _
    (fun i => np_sum (map (fun j => nth i x 0 * gram W_ i j * nth j x 0)
                          (seq 0 n))
              + nth i x 0 * nth i psi_ 0 * nth i x 0)).
  - rewrite np_sum_plus, gram_quad.
    apply Rplus_le_le_0_compat.
    + apply np_sum_nonneg. intros r _. apply Rle_0_sqr.
    + apply np_sum_nonneg. intros i Hi. apply in_seq in Hi.
      assert (0 <= nth i psi_ 0).
      { apply (proj1 (Forall_forall _ _) Hpsi). apply nth_In. lia. }
      pose proof (Rle_0_sqr (nth i x 0)) as Hs. unfold Rsqr in Hs. nra.
  - intros i Hi. apply in_seq in Hi.
    rewrite <- (np_sum_delta
                  (fun j => nth i x 0 * nth i psi_ 0 * nth j x 0) i n 0%nat)
      by lia.
    rewrite <- np_sum_plus. apply np_sum_ext. intros j Hj.
    apply in_seq in Hj. rewrite cov_of_entry by lia.
    destruct (Nat.eqb i j); ring.
Qed.
End Covariance.

(** ** The concrete library keeps the promise about shapes *)

Lemma column_svd_shapes (M : matrix) :
  length (fst (column_svd M)) = Nat.min (nrows M) (ncols M) /\
  nrows (snd (column_svd M)) = length (fst (column_svd M)) /\
  ncols (snd (column_svd M)) = ncols M /\
  wf_matrix (snd (column_svd M)).
Proof.
  unfold column_svd, wf_matrix, nrows.
  destruct (ncols M) as [|[|m]] eqn:Ec; cbn [fst snd rows ncols].
  - rewrite Nat.min_0_r. cbn. repeat split; constructor.
  - rewrite !length_firstn. cbn [length].
    repeat split; try lia.
    apply Forall_firstn. repeat constructor.
  - set (k := S (S m)).
    rewrite repeat_length, length_firstn.
    unfold np_eye. cbn [rows]. rewrite length_map, length_seq.
    repeat split; try lia.
    apply Forall_firstn, Forall_map, Forall_forall. intros i _.
    rewrite length_map, length_seq. reflexivity.
Qed.

Lemma column_library_shapes : svd_shapes column_library.
Proof.
  split.
  - intros M _. cbn [linalg_svd column_library].
    pose proof (column_svd_shapes M) as H.
    destruct (column_svd M) as [s V]. exact H.
  - intros M k g p _. cbn [randomized_svd column_library].
    pose proof (column_svd_shapes M) as (Hs & HV & Hc & Hw).
    destruct (column_svd M) as [s V]. cbn [fst snd] in *.
    unfold nrows in *. cbn [rows ncols].
    rewrite !length_firstn, HV. repeat split; try assumption.
    + unfold wf_matrix. cbn [rows ncols]. apply Forall_firstn. exact Hw.
    + intros Hk. rewrite Hs. lia.
Qed.

Lemma wf_X_col4 : wf_matrix X_col4.
Proof. repeat constructor. Qed.

(** A run of a single iteration: the iteration does not pass the test. *)
Lemma single_iteration_trace {L : LinAlg} (self : FactorAnalysis) (X : matrix)
      (w : rng_world) :
  reaches_loop self X -> max_iter self = 1%Z ->
  exists r0, fit_trace (fit self X w) = [r0] /\ fired (tol self) r0 = false.
Proof.
  intros Hreach Hmax.
  pose proof (fit_run self X w Hreach) as (_ & Hch & Hlen & _ & Hlast).
  rewrite Hmax in Hlen, Hlast.
  destruct (fit_trace (fit self X w)) as [|r0 t].
  - cbn [last_iteration] in Hlast. destruct Hlast as (Hn & _).
    discriminate Hn.
  - destruct t as [|r1 t]; [|cbn in Hlen; lia].
    exists r0. split; [reflexivity|].
    destruct Hch as (_ & Ho & _). unfold fired. rewrite Ho. reflexivity.
Qed.

Lemma exhausted_fit_returns_model_witness :
  let r := fit (L := column_library) fa_one_iteration X_col4 world0 in
  fit_outcome r = Returned tt /\
  fit_warnings r = [ConvergenceWarning] /\
  fitted_shapes (fit_self r) 1 1 /\
  exists lls, loglike_ (fit_self r) = Some lls /\ lls <> [] /\
              length lls = 1%nat.
Proof.
  destruct (single_iteration_trace (L := column_library)
              fa_one_iteration X_col4 world0
              (reaches_loop_no_init fa_one_iteration X_col4 eq_refl eq_refl)
              eq_refl) as (r0 & Ht & Hnf).
  apply (exhausted_fit_returns_model (L := column_library)
           fa_one_iteration X_col4 world0).
  - exact column_library_shapes.
  - exact wf_X_col4.
  - cbn. lia.
  - cbn. lia.
  - rewrite Ht. intros rec [<-|[]]. exact Hnf.
  - rewrite Ht. reflexivity.
Defined.

(** ** The covariance of a fitted model (C7) *)

(** C7: for the model that [fit] returns, [get_covariance] returns the
    [n_features] by [n_features] array [W^T W + diag(psi)], with [W] the
    stored [components_] and [psi] the stored [noise_variance_]: the entry
    [(i, j)] is the sum over the components of [W[k, i] * W[k, j]], plus
    [psi[i]] on the diagonal.  The array is symmetric and positive
    semi-definite; the call leaves the model as it is, and its result depends
    on [components_] and [noise_variance_] only. *)
Theorem get_covariance_value {L : LinAlg} (self : FactorAnalysis) (X : matrix)
        (w : rng_world) :
  svd_shapes L -> wf_matrix X ->
  fit_outcome (fit self X w) = Returned tt ->
  let m := fit_self (fit self X w) in
  exists W_ psi_ C,
    components_ m = Some W_ /\ noise_variance_ m = Some psi_ /\
    get_covariance m = (Returned C, m) /\
    nrows C = ncols X /\ ncols C = ncols X /\ wf_matrix C /\
    (forall i j, (i < ncols X)%nat -> (j < ncols X)%nat ->
       entry C i j = gram W_ i j + (if Nat.eqb i j then nth i psi_ 0 else 0)) /\
    (forall i, (i < ncols X)%nat ->
       entry C i i = gram W_ i i + nth i psi_ 0) /\
    symmetric C /\ positive_semidefinite C /\
    (forall other,
        components_ other = components_ m ->
        noise_variance_ other = noise_variance_ m ->
        fst (get_covariance other) = Returned C).
Proof.
  intros Hsvd HX Hret. cbn zeta.
  pose proof (returned_reaches_loop self X w Hret) as Hreach.
  destruct (fit_returns_shapes Hsvd self X HX w Hreach Hret)
    as (k & (mu & W_ & psi_ & Hmu & HW & Hpsi & Hlmu & Hk & Hn & Hwf & Hlpsi) & _).
  pose proof (fit_stored_psi_floor self X w psi_ Hreach Hret Hpsi) as Hfloor.
  destruct (cov_of_shape W_ psi_) as (Hr & Hc & Hw).
  exists W_, psi_, (cov_of W_ psi_).
  split; [exact HW|]. split; [exact Hpsi|].
  split; [unfold get_covariance; rewrite HW, Hpsi; reflexivity|].
  rewrite <- Hn.
  split; [exact Hr|]. split; [exact Hc|]. split; [exact Hw|].
  split; [intros i j Hi Hj; apply cov_of_entry; assumption|].
  split.
  { intros i Hi. rewrite cov_of_entry by assumption.
    rewrite Nat.eqb_refl. reflexivity. }
  split; [apply cov_of_symmetric|].
  split.
  { apply cov_of_psd; [|congruence].
    eapply Forall_impl; [|exact Hfloor].
    intros x Hx. pose proof SMALL_pos. cbn in *. lra. }
  intros other Ho1 Ho2. unfold get_covariance.
  rewrite Ho1, Ho2, HW, Hpsi. reflexivity.
Qed.

Lemma get_covariance_value_witness :
  let m := fit_self (fit (L := column_library) fa_lapack X_col4 world0) in
  exists W_ psi_ C,
    components_ m = Some W_ /\ noise_variance_ m = Some psi_ /\
    get_covariance m = (Returned C, m) /\
    nrows C = 1%nat /\ ncols C = 1%nat /\ wf_matrix C /\
    (forall i j, (i < 1)%nat -> (j < 1)%nat ->
       entry C i j = gram W_ i j + (if Nat.eqb i j then nth i psi_ 0 else 0)) /\
    (forall i, (i < 1)%nat -> entry C i i = gram W_ i i + nth i psi_ 0) /\
    symmetric C /\ positive_semidefinite C /\
    (forall other,
        components_ other = components_ m ->
        noise_variance_ other = noise_variance_ m ->
        fst (get_covariance other) = Returned C).
Proof.
  destruct col4_default_run as (r0 & r1 & _ & _ & Hret & _).
  apply (get_covariance_value (L := column_library) fa_lapack X_col4 world0).
  - exact column_library_shapes.
  - exact wf_X_col4.
  - exact Hret.
Defined.

(** ** Entries of products and transposes *)

Lemma nth_rows_map (f : vector -> vector) (l : list vector) (i : nat) :
  (i < length l)%nat -> nth i (map f l) [] = f (nth i l []).
Proof. apply nth_map_lt. Qed.

Lemma nth_seq_map {B : Type} (f : nat -> B) (n i : nat) (d : B) :
  (i < n)%nat -> nth i (map f (seq 0 n)) d = f i.
Proof.
  intros Hi. rewrite (nth_map_lt f (seq 0 n) i d 0%nat)
    by (rewrite length_seq; exact Hi).
  rewrite seq_nth by exact Hi. reflexivity.
Qed.

Lemma np_dot1_seq : forall (u v : vector) (n : nat),
  length u = n -> length v = n ->
  np_dot1 u v = np_sum (map (fun f => nth f u 0 * nth f v 0) (seq 0 n)).
Proof.
  unfold np_dot1, vmap2.
  induction u as [|a u IH]; intros v n Hu Hv.
  - subst n. reflexivity.
  - destruct v as [|b v]; [subst n; discriminate Hv|].
    destruct n as [|n]; [discriminate Hu|].
    cbn [combine map seq fst snd]. rewrite !np_sum_cons.
    rewrite <- seq_shift, map_map. cbn [nth].
    rewrite (IH v n); [reflexivity| |]; cbn in *; lia.
Qed.

Lemma nrows_np_dot (A B : matrix) : nrows (np_dot A B) = nrows A.
Proof. unfold nrows, np_dot. cbn [rows]. apply length_map. Qed.

Lemma wf_np_dot (A B : matrix) : wf_matrix (np_dot A B).
Proof.
  unfold wf_matrix, np_dot. cbn [rows ncols].
  apply Forall_map, Forall_forall. intros a _.
  rewrite length_map, length_seq. reflexivity.
Qed.

Lemma entry_np_dot (A B : matrix) (i j : nat) :
  (i < nrows A)%nat -> (j < ncols B)%nat ->
  entry (np_dot A B) i j = np_dot1 (nth i (rows A) []) (col B j).
Proof.
  intros Hi Hj. unfold entry, np_dot. cbn [rows].
  rewrite nth_rows_map by exact Hi.
  rewrite nth_seq_map by exact Hj. reflexivity.
Qed.


Lemma nth_col (M : matrix) (j l : nat) :
  (l < nrows M)%nat -> nth l (col M j) 0 = entry M l j.
Proof.
  intros Hl. unfold col, entry.
  rewrite (nth_map_lt _ (rows M) l 0 []) by exact Hl. reflexivity.
Qed.



Lemma nrows_row_op f (M : matrix) (v : vector) :
  nrows (row_op f M v) = nrows M.
Proof. unfold nrows, row_op. cbn [rows]. apply length_map. Qed.

Lemma entry_row_op f (M : matrix) (v : vector) (i j : nat) :
  wf_matrix M -> length v = ncols M ->
  (i < nrows M)%nat -> (j < ncols M)%nat ->
  entry (row_op f M v) i j = f (entry M i j) (nth j v 0).
Proof.
  intros HM Hv Hi Hj. unfold entry, row_op. cbn [rows].
  rewrite nth_rows_map by exact Hi.
  assert (Hr : length (nth i (rows M) []) = ncols M).
  { apply (proj1 (Forall_forall _ _) HM). apply nth_In. exact Hi. }
  apply nth_vmap2; lia.
Qed.

Lemma row_length (M : matrix) (i : nat) :
  wf_matrix M -> (i < nrows M)%nat -> length (nth i (rows M) []) = ncols M.
Proof.
  intros HM Hi. apply (proj1 (Forall_forall _ _) HM). apply nth_In. exact Hi.
Qed.





(** ** [transform] (C8) *)



(** ** Two calls of [fit] (C9) *)

(** C9: two calls of [fit] on the same data, by estimators with the same
    parameters, whatever attributes they hold from earlier fits and whatever
    the state of the generators, end the same way, with the same warnings
    and the same iterations; when they return, the two models ([mean_],
    [components_], [noise_variance_], [loglike_]) are equal.  This holds for
    the exact strategy, and for the randomized one when [random_state] is an
    integer: each call then seeds a generator of its own and leaves the
    others untouched. *)
Theorem fit_deterministic {L : LinAlg} (a b : FactorAnalysis) (X : matrix)
        (w1 w2 : rng_world) :
  same_parameters a b ->
  (svd_method a = "lapack"%string \/
   (svd_method a = "randomized"%string /\
    exists seed, random_state a = SeedInt seed)) ->
  let r1 := fit a X w1 in
  let r2 := fit b X w2 in
  fit_outcome r1 = fit_outcome r2 /\
  fit_warnings r1 = fit_warnings r2 /\
  fit_trace r1 = fit_trace r2 /\
  mean_ (fit_self r1) = mean_ (fit_self r2) /\
  (fit_outcome r1 = Returned tt ->
   fit_self r1 = fit_self r2 /\
   exists W_ psi_ lls,
     components_ (fit_self r1) = Some W_ /\
     noise_variance_ (fit_self r1) = Some psi_ /\
     loglike_ (fit_self r1) = Some lls) /\
  (svd_method a = "randomized"%string ->
   fit_world r1 = w1 /\ fit_world r2 = w2).
Proof.
  intros (H1 & H2 & H3 & H4 & H5 & H6 & H7 & H8) Hmode.
  destruct a as [nc1 tol1 copy1 mi1 init1 m1 ip1 rs1 mean1 comp1 nv1 ll1].
  destruct b as [nc2 tol2 copy2 mi2 init2 m2 ip2 rs2 mean2 comp2 nv2 ll2].
  cbn in H1, H2, H3, H4, H5, H6, H7, H8, Hmode. subst.
  cbn zeta. unfold fit, n_components_of, set_mean_.
  cbn [n_components tol copy max_iter noise_variance_init svd_method
       iterated_power random_state mean_ components_ noise_variance_ loglike_].
  set (Xc := row_op Rminus X (np_mean X)).
  set (nsq := sqrt (INR (nrows X))).
  set (k := match nc2 with Some k0 => k0 | None => ncols X end).
  set (llc := INR (ncols X) * ln (2 * PI) + INR k).
  set (var := np_var Xc).
  assert (Hrun : forall psi0,
    let run (comp0 : option matrix) (nv0 : option vector)
            (ll0 : option (list R)) (w : rng_world) :=
      if String.eqb m2 "lapack" then
        fit_finish
          (mkFA nc2 tol2 copy2 mi2 init2 m2 ip2 rs2 (Some (np_mean X))
                comp0 nv0 ll0)
          (if copy2 then X else Xc) w
          (em_loop unit (my_svd_lapack k) Xc (nrows X) nsq llc var tol2
                   (Z.to_nat mi2) (mkState psi0 NegInf [] None tt []))
      else if String.eqb m2 "randomized" then
        fit_finish
          (mkFA nc2 tol2 copy2 mi2 init2 m2 ip2 rs2 (Some (np_mean X))
                comp0 nv0 ll0)
          (if copy2 then X else Xc)
          (write_rng (check_random_state rs2)
             (gen (fst (em_loop rng (my_svd_randomized k ip2) Xc (nrows X)
                          nsq llc var tol2 (Z.to_nat mi2)
                          (mkState psi0 NegInf [] None
                             (read_rng (check_random_state rs2) w) []))))
             w)
          (em_loop rng (my_svd_randomized k ip2) Xc (nrows X) nsq llc var
                   tol2 (Z.to_nat mi2)
                   (mkState psi0 NegInf [] None
                      (read_rng (check_random_state rs2) w) []))
      else
        mkFit (Raised (ValueError (SvdMethodNotSupported m2)))
              (mkFA nc2 tol2 copy2 mi2 init2 m2 ip2 rs2 (Some (np_mean X))
                    comp0 nv0 ll0)
              (if copy2 then X else Xc) [] w [] in
    let r1 := run comp1 nv1 ll1 w1 in
    let r2 := run comp2 nv2 ll2 w2 in
    fit_outcome r1 = fit_outcome r2 /\
    fit_warnings r1 = fit_warnings r2 /\
    fit_trace r1 = fit_trace r2 /\
    mean_ (fit_self r1) = mean_ (fit_self r2) /\
    (fit_outcome r1 = Returned tt ->
     fit_self r1 = fit_self r2 /\
     exists W_ psi_ lls,
       components_ (fit_self r1) = Some W_ /\
       noise_variance_ (fit_self r1) = Some psi_ /\
       loglike_ (fit_self r1) = Some lls) /\
    (m2 = "randomized"%string -> fit_world r1 = w1 /\ fit_world r2 = w2)).
  { intros psi0. cbn zeta.
    destruct Hmode as [->|(-> & seed & ->)].
    - cbn [String.eqb Ascii.eqb Bool.eqb].
      set (res := em_loop unit _ _ _ _ _ _ _ _ _).
      unfold fit_finish. destruct (W (fst res)) as [W_|]; cbn.
      + repeat split; try reflexivity; try discriminate.
        exists W_, (psi (fst res)), (loglike (fst res)). auto.
      + repeat split; try reflexivity; discriminate.
    - cbn [String.eqb Ascii.eqb Bool.eqb check_random_state read_rng write_rng].
      set (res := em_loop rng _ _ _ _ _ _ _ _ _).
      unfold fit_finish. destruct (W (fst res)) as [W_|]; cbn.
      + repeat split; try reflexivity; try discriminate.
        exists W_, (psi (fst res)), (loglike (fst res)). auto.
      + repeat split; try reflexivity; discriminate. }
  destruct init2 as [init|].
  - destruct (negb (Nat.eqb (length init) (ncols X))).
    + cbn. repeat split; try reflexivity; discriminate.
    + apply Hrun.
  - apply Hrun.
Qed.

Lemma fit_deterministic_witness :
  let r1 := fit (L := column_library) fa_lapack X_col4 world0 in
  let r2 := fit (L := column_library) fa_lapack X_col4 world1 in
  fit_outcome r1 = fit_outcome r2 /\
  fit_warnings r1 = fit_warnings r2 /\
  fit_trace r1 = fit_trace r2 /\
  mean_ (fit_self r1) = mean_ (fit_self r2) /\
  (fit_outcome r1 = Returned tt ->
   fit_self r1 = fit_self r2 /\
   exists W_ psi_ lls,
     components_ (fit_self r1) = Some W_ /\
     noise_variance_ (fit_self r1) = Some psi_ /\
     loglike_ (fit_self r1) = Some lls) /\
  (svd_method fa_lapack = "randomized"%string ->
   fit_world r1 = world0 /\ fit_world r2 = world1).
Proof.
  apply (fit_deterministic (L := column_library) fa_lapack fa_lapack X_col4
           world0 world1).
  - repeat split; reflexivity.
  - left. reflexivity.
Defined.

(** ** A covariance computed *)

(** With [components_ = [[3, 4]]] and [noise_variance_ = [1, 2]] the
    covariance is [[10, 12], [12, 18]]. *)
Example get_covariance_fa_fitted :
  get_covariance fa_fitted
  = (Returned (mkMatrix 2 [[10; 12]; [12; 18]]), fa_fitted).
Proof.
  unfold get_covariance, fa_fitted. cbn [components_ noise_variance_].
  f_equal. f_equal.
  unfold flat_stride_iadd, np_dot, np_T, nrows, col, np_dot1, vmap2.
  cbn. repeat (f_equal; try lra).
Qed.

(** * Further properties of the code *)

(** ** How a call of [fit] ends *)

Lemma fit_reached_outcome {L : LinAlg} (self : FactorAnalysis) (X : matrix)
      (w : rng_world) :
  reaches_loop self X ->
  fit_outcome (fit self X w) =
  if (1 <=? max_iter self)%Z then Returned tt
  else Raised (UnboundLocalError "W").
Proof.
  intros Hreach.
  pose proof (fit_run self X w Hreach) as (_ & _ & Hlen & _ & Hlast).
  destruct (last_iteration (fit_trace (fit self X w))) as [rl|] eqn:El.
  - destruct Hlast as (Ho & _). rewrite Ho.
    apply last_iteration_In in El.
    destruct (fit_trace (fit self X w)); [contradiction|].
    cbn in Hlen. destruct (Z.leb_spec 1 (max_iter self)); [reflexivity|lia].
  - destruct Hlast as (Hn & Ho & _). rewrite Ho.
    destruct (Z.leb_spec 1 (max_iter self)); [lia|reflexivity].
Qed.


(** ** What [fit] does on every path *)

Lemma same_parameters_set_mean_ (self : FactorAnalysis) (m : vector) :
  same_parameters self (set_mean_ self m).
Proof. repeat split. Qed.

Lemma same_parameters_set_fitted (self : FactorAnalysis) (m : vector)
      (W_ : matrix) (psi_ : vector) (lls : list R) :
  same_parameters self (set_fitted (set_mean_ self m) W_ psi_ lls).
Proof. repeat split. Qed.

(** X2: on every path, raising or not, [fit] keeps the eight constructor
    parameters, overwrites [mean_] with the column means of the data, and
    leaves the caller's array untouched when [copy] is true and centred in
    place when it is false; the caller's generator is left as it was unless
    the strategy is the randomized one and [random_state] is a generator
    object. *)
Theorem fit_on_every_path {L : LinAlg} (self : FactorAnalysis) (X : matrix)
        (w : rng_world) :
  let r := fit self X w in
  same_parameters self (fit_self r) /\
  mean_ (fit_self r) = Some (np_mean X) /\
  fit_X r = (if copy self then X else centred X) /\
  (~ (svd_method self = "randomized"%string /\
      random_state self = SeedInstance) -> fit_world r = w).
Proof.
  cbn zeta. rewrite <- !and_assoc. split.
  2:{ intros Hno. unfold fit. cbv zeta.
      assert (Hw : (forall g w', write_rng
                              (check_random_state (random_state self)) g w'
                            = w') \/
                svd_method self <> "randomized"%string).
      { destruct (random_state self) eqn:Es.
        - left. reflexivity.
        - right. intros Hm. apply Hno. split; [exact Hm|reflexivity]. }
      assert (Hfw : forall (G : Type) s0 X0 w' (res : em_state G * bool),
                fit_world (fit_finish s0 X0 w' res) = w').
      { intros G s0 X0 w' res. unfold fit_finish.
        destruct (W (fst res)); reflexivity. }
      destruct (noise_variance_init self) as [init|];
        [destruct (negb (Nat.eqb (length init) (ncols X))); [reflexivity|]|];
        (destruct (String.eqb (svd_method self) "lapack");
         [apply Hfw|
          destruct (String.eqb (svd_method self) "randomized") eqn:Er;
          [rewrite Hfw; destruct Hw as [Hw|Hw];
           [rewrite Hw; reflexivity
           |apply String.eqb_eq in Er; contradiction]
          |reflexivity]]). }
  rewrite !and_assoc. unfold fit. cbv zeta.
  assert (Hfin : forall (G : Type) (w' : rng_world) (res : em_state G * bool),
    let r := fit_finish (set_mean_ self (np_mean X))
               (if copy self then X else row_op Rminus X (np_mean X)) w' res in
    same_parameters self (fit_self r) /\
    mean_ (fit_self r) = Some (np_mean X) /\
    fit_X r = (if copy self then X else centred X)).
  { intros G w' res. cbn zeta. unfold fit_finish.
    destruct (W (fst res)); cbn [fit_self fit_X].
    - split; [apply same_parameters_set_fitted|]. split; reflexivity.
    - split; [apply same_parameters_set_mean_|]. split; reflexivity. }
  assert (Hraise : forall e,
    let r := mkFit (Raised e) (set_mean_ self (np_mean X))
               (if copy self then X else row_op Rminus X (np_mean X)) [] w [] in
    same_parameters self (fit_self r) /\
    mean_ (fit_self r) = Some (np_mean X) /\
    fit_X r = (if copy self then X else centred X)).
  { intros e. cbn zeta. cbn [fit_self fit_X].
    split; [apply same_parameters_set_mean_|]. split; reflexivity. }
  destruct (noise_variance_init self) as [init|];
    [destruct (negb (Nat.eqb (length init) (ncols X))); [apply Hraise|]|];
    (destruct (String.eqb (svd_method self) "lapack");
     [apply Hfin|destruct (String.eqb (svd_method self) "randomized");
                 [apply Hfin|apply Hraise]]).
Qed.

(** ** How many iterations a call runs *)

(** X3: when [fit] returns, [loglike_] has one entry per executed
    iteration: at least one and at most [max_iter].  A return without
    warning took at least two iterations (the first one is compared with
    [-np.inf] and never passes the test); a return with the warning took
    exactly [max_iter]; and [max_iter = 1] always warns. *)
Theorem fit_iteration_count {L : LinAlg} (self : FactorAnalysis) (X : matrix)
        (w : rng_world) :
  let r := fit self X w in
  fit_outcome r = Returned tt ->
  exists lls,
    loglike_ (fit_self r) = Some lls /\
    (1 <= length lls <= Z.to_nat (max_iter self))%nat /\
    (fit_warnings r = [] -> (2 <= length lls)%nat) /\
    (fit_warnings r = [ConvergenceWarning] ->
     length lls = Z.to_nat (max_iter self)) /\
    (max_iter self = 1%Z -> fit_warnings r = [ConvergenceWarning]).
Proof.
  cbn zeta. intros Hret.
  pose proof (returned_reaches_loop self X w Hret) as Hreach.
  pose proof (fit_run self X w Hreach) as (_ & Hch & Hlen & _ & Hlast).
  destruct (last_iteration (fit_trace (fit self X w))) as [rl|] eqn:El.
  - destruct Hlast as (_ & Hs & Hw & Hfull).
    exists (map it_ll (fit_trace (fit self X w))).
    split; [rewrite Hs; reflexivity|].
    rewrite length_map.
    pose proof (last_iteration_nth _ _ El) as Hn.
    assert (Hpos : (length (fit_trace (fit self X w)) - 1
                    < length (fit_trace (fit self X w)))%nat)
      by (apply nth_error_Some; congruence).
    assert (Htwo : fired (tol self) rl = true ->
                   (2 <= length (fit_trace (fit self X w)))%nat).
    { intros Hf.
      destruct (fired_has_predecessor _ _ _ _ _ _ Hch Hn Hf)
        as (j & _ & Hj & _). lia. }
    split; [lia|]. split; [|split].
    + intros Hnil. apply Htwo.
      destruct (fired (tol self) rl); [reflexivity|].
      rewrite Hw in Hnil. discriminate Hnil.
    + intros Hwarn. apply Hfull.
      destruct (fired (tol self) rl); [|reflexivity].
      rewrite Hw in Hwarn. discriminate Hwarn.
    + intros Hone. rewrite Hw.
      destruct (fired (tol self) rl) eqn:Hf; [|reflexivity].
      specialize (Htwo eq_refl). rewrite Hone in Hlen. cbn in Hlen. lia.
  - destruct Hlast as (_ & Ho & _). congruence.
Qed.

Lemma fit_iteration_count_witness :
  exists lls,
    loglike_ (fit_self (fit (L := column_library) fa_lapack X_col4 world0))
    = Some lls /\
    (1 <= length lls <= Z.to_nat (max_iter fa_lapack))%nat.
Proof.
  destruct col4_default_run as (r0 & r1 & _ & _ & Hret & _).
  destruct (fit_iteration_count (L := column_library) fa_lapack X_col4 world0
              Hret) as (lls & H1 & H2 & _).
  exists lls. split; assumption.
Defined.

(** ** Centring *)

Lemma nth_repeat_0 (n j : nat) : nth j (repeat 0 n) 0 = 0.
Proof.
  revert j. induction n as [|n IH]; intros [|j]; cbn; auto.
Qed.

(** The entries of the column sums. *)
Lemma nth_col_sum (M : matrix) (j : nat) :
  wf_matrix M -> (j < ncols M)%nat ->
  nth j (col_sum M) 0 = np_sum (map (fun r => nth j r 0) (rows M)).
Proof.
  intros HM Hj. unfold col_sum. unfold wf_matrix in HM.
  induction HM as [|r rs Hr Hrs IH].
  - cbn [fold_right map]. rewrite np_sum_nil. apply nth_repeat_0.
  - cbn [fold_right map]. rewrite np_sum_cons.
    rewrite nth_vmap2.
    + rewrite IH. reflexivity.
    + lia.
    + change (fold_right (vmap2 Rplus) (repeat 0 (ncols M)) rs)
        with (col_sum (mkMatrix (ncols M) rs)).
      rewrite length_col_sum; [exact Hj|exact Hrs].
Qed.

Lemma np_sum_minus_const {A : Type} (f : A -> R) (c : R) (l : list A) :
  np_sum (map (fun a => f a - c) l) = np_sum (map f l) - INR (length l) * c.
Proof.
  induction l as [|a l IH].
  - cbn. lra.
  - cbn [map length]. rewrite !np_sum_cons, IH, S_INR. lra.
Qed.

Lemma nth_np_mean (M : matrix) (j : nat) :
  wf_matrix M -> (j < ncols M)%nat ->
  nth j (np_mean M) 0
  = np_sum (map (fun r => nth j r 0) (rows M)) / INR (nrows M).
Proof.
  intros HM Hj. unfold np_mean.
  rewrite (nth_map_lt _ (col_sum M) j 0 0)
    by (rewrite length_col_sum; assumption).
  rewrite nth_col_sum by assumption. reflexivity.
Qed.

Lemma rows_centred_nth (X : matrix) (r : vector) (j : nat) :
  wf_matrix X -> In r (rows X) -> (j < ncols X)%nat ->
  nth j (vmap2 Rminus r (np_mean X)) 0 = nth j r 0 - nth j (np_mean X) 0.
Proof.
  intros HX Hr Hj. apply nth_vmap2.
  - rewrite (proj1 (Forall_forall _ _) HX r Hr). exact Hj.
  - rewrite length_np_mean; assumption.
Qed.

(** After [X -= mean_] every column has mean zero. *)
Lemma np_mean_centred (X : matrix) :
  wf_matrix X -> (1 <= nrows X)%nat ->
  np_mean (centred X) = repeat 0 (ncols X).
Proof.
  intros HX Hn.
  pose proof (wf_centred X HX) as HC.
  apply (nth_ext _ _ 0 0).
  - rewrite length_np_mean by exact HC. rewrite repeat_length. reflexivity.
  - intros j Hj. rewrite length_np_mean in Hj by exact HC.
    change (ncols (centred X)) with (ncols X) in Hj.
    rewrite nth_repeat_0, nth_np_mean by assumption.
    unfold centred at 1. unfold row_op. cbn [rows]. rewrite map_map.
    rewrite (np_sum_ext _ (fun r => nth j r 0 - nth j (np_mean X) 0)).
    + rewrite np_sum_minus_const, nth_np_mean by assumption.
      assert (Hrows : nrows (centred X) = nrows X).
      { unfold nrows, centred, row_op. cbn [rows]. apply length_map. }
      rewrite Hrows. unfold nrows in *.
      assert (HN : INR (length (rows X)) <> 0).
      { apply not_0_INR. lia. }
      set (N := INR (length (rows X))) in *.
      set (S := np_sum (map (fun a : list R => nth j a 0) (rows X))).
      unfold Rdiv. rewrite (Rmult_comm S), <- Rmult_assoc, Rinv_r by exact HN.
      lra.
    + intros r Hr. apply rows_centred_nth; assumption.
Qed.

Lemma vmap2_minus_zeros (r : vector) (n : nat) :
  length r = n -> vmap2 Rminus r (repeat 0 n) = r.
Proof.
  revert n. unfold vmap2. induction r as [|x r IH]; intros n Hn.
  - reflexivity.
  - destruct n as [|n]; [discriminate Hn|].
    cbn [repeat combine map fst snd]. rewrite IH by (cbn in Hn; lia).
    f_equal. lra.
Qed.

(** Centring centred data changes nothing. *)
Lemma centred_idempotent (X : matrix) :
  wf_matrix X -> (1 <= nrows X)%nat -> centred (centred X) = centred X.
Proof.
  intros HX Hn. pose proof (wf_centred X HX) as HC.
  transitivity (mkMatrix (ncols X) (rows (centred X))); [|reflexivity].
  unfold centred at 1. unfold row_op at 1.
  rewrite np_mean_centred by assumption.
  change (ncols (centred X)) with (ncols X). f_equal.
  transitivity (map (fun r : vector => r) (rows (centred X)));
    [|apply map_id].
  apply map_ext_in. intros r Hr. apply vmap2_minus_zeros.
  apply (proj1 (Forall_forall _ _) HC r Hr).
Qed.

(** [var] of line 163 is the mean of the squares of the centred data. *)
Lemma np_var_centred (X : matrix) :
  wf_matrix X -> (1 <= nrows X)%nat ->
  np_var (centred X) = np_mean (msquare (centred X)).
Proof.
  intros HX Hn. unfold np_var.
  change (row_op Rminus (centred X) (np_mean (centred X)))
    with (centred (centred X)).
  rewrite centred_idempotent by assumption. reflexivity.
Qed.

Lemma nth_np_var_centred (X : matrix) (j : nat) :
  wf_matrix X -> (1 <= nrows X)%nat -> (j < ncols X)%nat ->
  nth j (np_var (centred X)) 0
  = np_sum (map (fun r => (nth j r 0 - nth j (np_mean X) 0)
                          * (nth j r 0 - nth j (np_mean X) 0)) (rows X))
    / INR (nrows X).
Proof.
  intros HX Hn Hj. rewrite np_var_centred by assumption.
  pose proof (wf_msquare _ (wf_centred X HX)) as HS.
  rewrite nth_np_mean by assumption.
  replace (nrows (msquare (centred X))) with (nrows X)
    by (unfold nrows, msquare, centred, row_op; cbn [rows];
        rewrite !length_map; reflexivity).
  f_equal. unfold msquare, centred, row_op. cbn [rows]. rewrite !map_map.
  apply np_sum_ext. intros r Hr.
  rewrite (nth_map_lt (fun x => x * x) _ j 0 0).
  - rewrite rows_centred_nth by assumption. reflexivity.
  - rewrite length_vmap2, length_np_mean by exact HX.
    rewrite (proj1 (Forall_forall _ _) HX r Hr). rewrite Nat.min_id. exact Hj.
Qed.

(** X4: for data with at least one sample and rows of the announced
    width: after [X -= mean_] every column mean is zero, centring again
    changes nothing, and [var] of line 163 is, for each feature, the mean of
    the squared deviations from the column mean. *)
Theorem centred_data_statistics (X : matrix) :
  wf_matrix X -> (1 <= nrows X)%nat ->
  np_mean (centred X) = repeat 0 (ncols X) /\
  centred (centred X) = centred X /\
  (forall j, (j < ncols X)%nat ->
     nth j (np_var (centred X)) 0
     = np_sum (map (fun r => (nth j r 0 - nth j (np_mean X) 0)
                             * (nth j r 0 - nth j (np_mean X) 0)) (rows X))
       / INR (nrows X)).
Proof.
  intros HX Hn. split; [apply np_mean_centred; assumption|].
  split; [apply centred_idempotent; assumption|].
  intros j Hj. apply nth_np_var_centred; assumption.
Qed.

Lemma centred_data_statistics_witness :
  np_mean (centred X_col4) = repeat 0 (ncols X_col4) /\
  centred (centred X_col4) = centred X_col4 /\
  (forall j, (j < ncols X_col4)%nat ->
     nth j (np_var (centred X_col4)) 0
     = np_sum (map (fun r => (nth j r 0 - nth j (np_mean X_col4) 0)
                             * (nth j r 0 - nth j (np_mean X_col4) 0))
                   (rows X_col4))
       / INR (nrows X_col4)).
Proof.
  apply (centred_data_statistics X_col4).
  - exact wf_X_col4.
  - cbn. lia.
Defined.

(** ** What a returned model is made of *)

Lemma fit_mean_and_array {L : LinAlg} (self : FactorAnalysis) (X : matrix)
      (w : rng_world) :
  mean_ (fit_self (fit self X w)) = Some (np_mean X) /\
  fit_X (fit self X w) = (if copy self then X else centred X).
Proof.
  unfold fit. cbv zeta.
  assert (Hfin : forall (G : Type) (w' : rng_world) (res : em_state G * bool),
    let r := fit_finish (set_mean_ self (np_mean X))
               (if copy self then X else row_op Rminus X (np_mean X)) w' res in
    mean_ (fit_self r) = Some (np_mean X) /\
    fit_X r = (if copy self then X else centred X)).
  { intros G w' res. cbn zeta. unfold fit_finish.
    destruct (W (fst res)); cbn [fit_self fit_X]; split; reflexivity. }
  destruct (noise_variance_init self) as [init|];
    [destruct (negb (Nat.eqb (length init) (ncols X)));
     [split; reflexivity|]|];
    (destruct (String.eqb (svd_method self) "lapack");
     [apply Hfin|destruct (String.eqb (svd_method self) "randomized");
                 [apply Hfin|split; reflexivity]]).
Qed.

(** The model that [fit] returns: [components_] is the loading matrix of an
    executed iteration, [noise_variance_] the update computed from the
    loading matrix of an executed iteration. *)
Lemma fit_stored_from_trace {L : LinAlg} (self : FactorAnalysis) (X : matrix)
      (w : rng_world) :
  fit_outcome (fit self X w) = Returned tt ->
  exists rl rp,
    In rl (fit_trace (fit self X w)) /\ In rp (fit_trace (fit self X w)) /\
    components_ (fit_self (fit self X w)) = Some (it_W rl) /\
    noise_variance_ (fit_self (fit self X w))
    = Some (psi_update (np_var (centred X)) (it_W rp)).
Proof.
  intros Hret.
  pose proof (returned_reaches_loop self X w Hret) as Hreach.
  pose proof (fit_run self X w Hreach) as (_ & Hch & _ & _ & Hlast).
  destruct (last_iteration (fit_trace (fit self X w))) as [rl|] eqn:El.
  - destruct Hlast as (_ & Hs & _).
    pose proof (last_iteration_In _ _ El) as Hin.
    destruct (fired (tol self) rl) eqn:Hf.
    + pose proof (last_iteration_nth _ _ El) as Hn.
      destruct (fired_has_predecessor _ _ _ _ _ _ Hch Hn Hf)
        as (j & prev & _ & Hprev & Hp).
      exists rl, prev. split; [exact Hin|].
      split; [eapply nth_error_In; exact Hprev|].
      rewrite Hs. cbn. rewrite Hp. split; reflexivity.
    + exists rl, rl. split; [exact Hin|]. split; [exact Hin|].
      rewrite Hs. cbn. split; reflexivity.
  - destruct Hlast as (_ & Ho & _). congruence.
Qed.

(** Shapes of what an executed iteration computed. *)
Lemma executed_iteration_shapes {L : LinAlg} (self : FactorAnalysis)
      (X : matrix) (w : rng_world) (rec : iteration) :
  svd_shapes L -> wf_matrix X ->
  In rec (fit_trace (fit self X w)) ->
  fit_iteration_ok self X rec /\ length (it_psi rec) = ncols X /\
  wf_matrix (it_W rec) /\ ncols (it_W rec) = ncols X /\
  ((n_components_of self X <= Nat.min (nrows X) (ncols X))%nat ->
   nrows (it_W rec) = n_components_of self X).
Proof.
  intros Hsvd HX Hin.
  pose proof (executed_reaches_loop self X w rec Hin) as Hreach.
  pose proof (fit_run self X w Hreach) as (Hok & Hch & _).
  pose proof (chained_psi_length Hsvd self X HX _ _ _ _ Hch Hok
                (length_initial_psi self X Hreach)) as Hlen.
  pose proof (proj1 (Forall_forall _ _) Hok rec Hin) as Hr.
  pose proof (proj1 (Forall_forall _ _) Hlen rec Hin) as Hp.
  split; [exact Hr|]. split; [exact Hp|].
  exact (iteration_shapes Hsvd self X HX rec Hr Hp).
Qed.

(** ** Fitting again on an array that [fit] centred in place *)

(** X5: with [copy=False] the first call leaves the caller's array
    centred; a second call on that array, by any estimator, stores a
    [mean_] of zeros and leaves the array as the first call left it, while
    the first estimator holds the column means of the original data. *)
Theorem refit_on_centred_array {L : LinAlg} (a b : FactorAnalysis)
        (X : matrix) (w w' : rng_world) :
  wf_matrix X -> (1 <= nrows X)%nat -> copy a = false ->
  let r1 := fit a X w in
  let r2 := fit b (fit_X r1) w' in
  fit_X r1 = centred X /\
  mean_ (fit_self r1) = Some (np_mean X) /\
  mean_ (fit_self r2) = Some (repeat 0 (ncols X)) /\
  fit_X r2 = fit_X r1.
Proof.
  intros HX Hn Hcopy. cbn zeta.
  destruct (fit_mean_and_array a X w) as [Hm1 HX1].
  rewrite Hcopy in HX1.
  destruct (fit_mean_and_array b (fit_X (fit a X w)) w') as [Hm2 HX2].
  rewrite HX1 in *.
  split; [reflexivity|]. split; [exact Hm1|].
  split; [rewrite Hm2, np_mean_centred by assumption; reflexivity|].
  rewrite HX2, centred_idempotent by assumption.
  destruct (copy b); reflexivity.
Qed.

Lemma refit_on_centred_array_witness :
  let r1 := fit (L := column_library) fa_inplace X_col4 world0 in
  let r2 := fit (L := column_library) fa_inplace (fit_X r1) world0 in
  fit_X r1 = centred X_col4 /\
  mean_ (fit_self r1) = Some (np_mean X_col4) /\
  mean_ (fit_self r2) = Some (repeat 0 (ncols X_col4)) /\
  fit_X r2 = fit_X r1.
Proof.
  apply (refit_on_centred_array (L := column_library) fa_inplace fa_inplace
           X_col4 world0 world0).
  - exact wf_X_col4.
  - cbn. lia.
  - reflexivity.
Defined.

(** ** Bounds on the noise variances *)

Lemma nth_psi_update (var : vector) (W_ : matrix) (j : nat) :
  wf_matrix W_ -> length var = ncols W_ -> (j < ncols W_)%nat ->
  nth j (psi_update var W_) 0
  = Rmax (nth j var 0
          - np_sum (map (fun r => nth j r 0 * nth j r 0) (rows W_))) SMALL.
Proof.
  intros HW Hv Hj. unfold psi_update, np_maximum.
  pose proof (wf_msquare W_ HW) as HS.
  rewrite (nth_map_lt _ _ j 0 0)
    by (rewrite length_vmap2, Hv, (length_col_sum _ HS); cbn [ncols msquare];
        rewrite Nat.min_id; exact Hj).
  rewrite nth_vmap2
    by (rewrite ?Hv, ?(length_col_sum _ HS); exact Hj).
  rewrite (nth_col_sum _ j HS) by exact Hj.
  f_equal. f_equal. unfold msquare. cbn [rows]. rewrite map_map.
  apply np_sum_ext. intros r Hr.
  rewrite (nth_map_lt (fun x => x * x) r j 0 0); [reflexivity|].
  rewrite (proj1 (Forall_forall _ _) HW r Hr). exact Hj.
Qed.

(** X6: every entry of the [noise_variance_] that [fit] returns lies
    between [SMALL] and the larger of [SMALL] and the variance of its
    feature in the data. *)
Theorem noise_variance_bounds {L : LinAlg} (self : FactorAnalysis)
        (X : matrix) (w : rng_world) (psi_ : vector) (j : nat) :
  svd_shapes L -> wf_matrix X ->
  fit_outcome (fit self X w) = Returned tt ->
  noise_variance_ (fit_self (fit self X w)) = Some psi_ ->
  (j < ncols X)%nat ->
  SMALL <= nth j psi_ 0 <= Rmax (nth j (np_var (centred X)) 0) SMALL.
Proof.
  intros Hsvd HX Hret Hpsi Hj.
  destruct (fit_stored_from_trace self X w Hret)
    as (rl & rp & _ & Hrp & _ & Hs).
  rewrite Hs in Hpsi. injection Hpsi as <-.
  destruct (executed_iteration_shapes self X w rp Hsvd HX Hrp)
    as (_ & _ & HW & HWc & _).
  rewrite nth_psi_update;
    [|exact HW
     |rewrite length_np_var by (apply wf_centred, HX); rewrite HWc; reflexivity
     |rewrite HWc; exact Hj].
  split; [apply Rmax_r|].
  assert (Hsq : 0 <= np_sum (map (fun r => nth j r 0 * nth j r 0)
                                 (rows (it_W rp)))).
  { apply np_sum_nonneg. intros r _. nra. }
  apply Rmax_lub.
  - eapply Rle_trans; [|apply Rmax_l]. lra.
  - apply Rmax_r.
Qed.

Lemma noise_variance_bounds_witness :
  exists psi_,
    noise_variance_ (fit_self (fit (L := column_library) fa_lapack X_col4
                                   world0)) = Some psi_ /\
    SMALL <= nth 0 psi_ 0 <= Rmax (nth 0 (np_var (centred X_col4)) 0) SMALL.
Proof.
  destruct col4_default_run as (r0 & r1 & _ & _ & Hret & _).
  destruct (fit_stored_from_trace (L := column_library) fa_lapack X_col4
              world0 Hret) as (rl & rp & _ & _ & _ & Hs).
  eexists. split; [exact Hs|].
  apply (noise_variance_bounds (L := column_library) fa_lapack X_col4 world0
           _ 0 column_library_shapes wf_X_col4 Hret Hs).
  cbn. lia.
Defined.

(** ** The exact decomposition strategy *)

Lemma np_dot1_self_app (a b : vector) :
  np_dot1 (a ++ b) (a ++ b) = np_dot1 a a + np_dot1 b b.
Proof.
  unfold np_dot1, vmap2. induction a as [|x a IH].
  - cbn [app combine map]. rewrite np_sum_nil. lra.
  - cbn [app combine map fst snd]. rewrite !np_sum_cons, IH. lra.
Qed.

Lemma np_dot1_self_nonneg (a : vector) : 0 <= np_dot1 a a.
Proof.
  unfold np_dot1, vmap2. induction a as [|x a IH].
  - cbn. lra.
  - cbn [combine map fst snd]. rewrite np_sum_cons. nra.
Qed.

Lemma my_svd_lapack_split {L : LinAlg} (k : nat) (M : matrix) :
  let all := fst (linalg_svd M) in
  let '(s, V, unexp_var, _) := my_svd_lapack k M tt in
  np_dot1 s s + unexp_var = np_dot1 all all /\
  0 <= unexp_var /\
  (length s <= k)%nat /\ (nrows V <= k)%nat /\
  ((length all <= k)%nat -> s = all /\ unexp_var = 0).
Proof.
  cbn zeta. unfold my_svd_lapack.
  destruct (linalg_svd M) as [s V]. cbn [fst].
  split; [|split; [|split; [|split]]].
  - rewrite <- np_dot1_self_app, firstn_skipn. reflexivity.
  - apply np_dot1_self_nonneg.
  - rewrite length_firstn. lia.
  - unfold nrows. cbn [rows]. rewrite length_firstn. lia.
  - intros Hk. rewrite firstn_all2, skipn_all2 by exact Hk.
    split; reflexivity.
Qed.

(** X7: with the exact strategy, in every executed iteration: the
    unexplained variance is not negative; at most [n_components] singular
    values and loading rows are kept, and so has [components_]; the squares
    of the kept singular values and the unexplained variance add up to the
    sum of squares of all the singular values; and when [n_components] is at
    least [min(n_samples, n_features)] (as with the default) all singular
    values are kept and the unexplained variance is zero. *)
Theorem lapack_iteration_bounds {L : LinAlg} (self : FactorAnalysis)
        (X : matrix) (w : rng_world) (rec : iteration) :
  svd_method self = "lapack"%string ->
  In rec (fit_trace (fit self X w)) ->
  0 <= it_unexp_var rec /\
  (length (it_s rec) <= n_components_of self X)%nat /\
  (nrows (it_W rec) <= n_components_of self X)%nat /\
  np_dot1 (it_s rec) (it_s rec) + it_unexp_var rec
  = np_dot1 (fst (linalg_svd (it_input rec)))
            (fst (linalg_svd (it_input rec))) /\
  (forall W_, fit_outcome (fit self X w) = Returned tt ->
              components_ (fit_self (fit self X w)) = Some W_ ->
              (nrows W_ <= n_components_of self X)%nat) /\
  (svd_shapes L -> wf_matrix X ->
   (Nat.min (nrows X) (ncols X) <= n_components_of self X)%nat ->
   it_unexp_var rec = 0 /\
   length (it_s rec) = Nat.min (nrows X) (ncols X)).
Proof.
  intros Hm Hin.
  pose proof (executed_reaches_loop self X w rec Hin) as Hreach.
  pose proof (fit_run self X w Hreach) as (Hok & _ & _ & _ & Hlast).
  assert (Hsplit : forall r, In r (fit_trace (fit self X w)) ->
            let all := fst (linalg_svd (it_input r)) in
            np_dot1 (it_s r) (it_s r) + it_unexp_var r = np_dot1 all all /\
            0 <= it_unexp_var r /\
            (length (it_s r) <= n_components_of self X)%nat /\
            (nrows (it_V r) <= n_components_of self X)%nat /\
            ((length all <= n_components_of self X)%nat ->
             it_s r = all /\ it_unexp_var r = 0)).
  { intros r Hr.
    pose proof (proj1 (Forall_forall _ _) Hok r Hr) as (H1 & H2 & H3 & H4 & H5).
    unfold fit_decomp in H3. rewrite Hm in H3. cbn in H3.
    pose proof (my_svd_lapack_split (n_components_of self X) (it_input r))
      as Hs.
    cbn zeta in Hs. rewrite H3 in Hs. exact Hs. }
  assert (Hrows : forall r, In r (fit_trace (fit self X w)) ->
            (nrows (it_W r) <= n_components_of self X)%nat).
  { intros r Hr. destruct (Hsplit r Hr) as (_ & _ & _ & HlV & _).
    pose proof (proj1 (Forall_forall _ _) Hok r Hr) as (_ & _ & _ & H4 & _).
    rewrite H4. unfold nrows, row_op, scale_rows. cbn [rows].
    rewrite !length_map, length_combine, !length_map.
    unfold nrows in HlV. lia. }
  destruct (Hsplit rec Hin) as (He & Hnn & Hls & _ & Hall).
  split; [exact Hnn|]. split; [exact Hls|]. split; [exact (Hrows rec Hin)|].
  split; [exact He|]. split.
  - intros W_ Hret HW.
    destruct (last_iteration (fit_trace (fit self X w))) as [rl|] eqn:El.
    + destruct Hlast as (_ & Hs & _). rewrite Hs in HW. cbn in HW.
      injection HW as <-. apply (Hrows rl (last_iteration_In _ _ El)).
    + destruct Hlast as (_ & Ho & _). congruence.
  - intros Hsvd HX Hfull.
    destruct (executed_iteration_shapes self X w rec Hsvd HX Hin)
      as ((H1 & H2 & _) & Hp & _).
    assert (Hwf : wf_matrix (it_input rec) /\
                  nrows (it_input rec) = nrows X /\
                  ncols (it_input rec) = ncols X).
    { rewrite H2. split; [|split].
      - apply wf_row_op; [apply wf_centred, HX|].
        rewrite length_map, H1, length_map. exact Hp.
      - rewrite nrows_row_op. unfold centred. apply nrows_row_op.
      - reflexivity. }
    destruct Hwf as (Hwf & Hnr & Hnc).
    pose proof (proj1 Hsvd (it_input rec) Hwf) as Hshape.
    destruct (linalg_svd (it_input rec)) as [s V] eqn:Es.
    destruct Hshape as (Hlen & _). cbn [fst] in Hall.
    rewrite Hnr, Hnc in Hlen.
    destruct (Hall ltac:(lia)) as (Hs & Hu).
    split; [exact Hu|]. rewrite Hs. exact Hlen.
Qed.

Lemma lapack_iteration_bounds_witness :
  exists rec,
    In rec (fit_trace (fit (L := column_library) fa_lapack X_col4 world0)) /\
    0 <= it_unexp_var rec /\
    (nrows (it_W rec) <= n_components_of fa_lapack X_col4)%nat.
Proof.
  destruct col4_default_run as (r0 & r1 & Ht & _).
  assert (Hin : In r0 (fit_trace (fit (L := column_library)
                                      fa_lapack X_col4 world0)))
    by (rewrite Ht; left; reflexivity).
  destruct (lapack_iteration_bounds (L := column_library) fa_lapack X_col4
              world0 r0 eq_refl Hin) as (A & _ & C & _).
  exists r0. split; [exact Hin|]. split; assumption.
Defined.

(** ** The covariance of a fitted model is positive definite *)

Lemma np_sum_pos {A : Type} (f : A -> R) (l : list A) (a0 : A) :
  (forall a, In a l -> 0 <= f a) -> In a0 l -> 0 < f a0 ->
  0 < np_sum (map f l).
Proof.
  induction l as [|a l IH]; intros Hnn Hin Hpos; [contradiction|].
  cbn [map]. rewrite np_sum_cons.
  assert (Hrest : 0 <= np_sum (map f l)).
  { apply np_sum_nonneg. intros b Hb. apply Hnn. right. exact Hb. }
  destruct Hin as [->|Hin].
  - lra.
  - pose proof (Hnn a (or_introl eq_refl)).
    assert (0 < np_sum (map f l)).
    { apply IH; auto. intros b Hb. apply Hnn. right. exact Hb. }
    lra.
Qed.

(** The quadratic form of [W^T W + diag(psi)]: a sum of squares over the
    components, plus the squares of the coordinates weighted by [psi]. *)
Lemma quad_form_cov_of (W_ : matrix) (psi_ x : vector) :
  length x = ncols W_ ->
  quad_form (cov_of W_ psi_) x
  = np_sum (map (fun r =>
                   np_sum (map (fun i => nth i x 0 * nth i r 0)
                               (seq 0 (ncols W_)))
                   * np_sum (map (fun i => nth i x 0 * nth i r 0)
                                 (seq 0 (ncols W_))))
                (rows W_))
    + np_sum (map (fun i => nth i x 0 * nth i psi_ 0 * nth i x 0)
                  (seq 0 (ncols W_))).
Proof.
  intros Hx. unfold quad_form. rewrite Hx.
  set (n := ncols W_) in *.
  rewrite <- gram_quad, <- np_sum_plus.
  apply np_sum_ext. intros i Hi. apply in_seq in Hi.
  rewrite <- (np_sum_delta
                (fun j => nth i x 0 * nth i psi_ 0 * nth j x 0) i n 0%nat)
    by lia.
  rewrite <- np_sum_plus. apply np_sum_ext. intros j Hj.
  apply in_seq in Hj. rewrite cov_of_entry by lia.
  destruct (Nat.eqb i j); ring.
Qed.

Lemma cov_of_positive_definite (W_ : matrix) (psi_ : vector) :
  Forall (Rle SMALL) psi_ -> length psi_ = ncols W_ ->
  positive_definite (cov_of W_ psi_).
Proof.
  intros Hpsi Hlen x Hx (i & Hi).
  destruct (cov_of_shape W_ psi_) as (Hn & _). rewrite Hn in Hx.
  rewrite quad_form_cov_of by exact Hx.
  assert (Hlt : (i < ncols W_)%nat).
  { destruct (Nat.lt_ge_cases i (length x)) as [H|H]; [lia|].
    rewrite nth_overflow in Hi by exact H. contradiction. }
  assert (Hfloor : forall k, (k < ncols W_)%nat -> 0 < nth k psi_ 0).
  { intros k Hk. pose proof SMALL_pos.
    assert (SMALL <= nth k psi_ 0).
    { apply (proj1 (Forall_forall _ _) Hpsi). apply nth_In. lia. }
    lra. }
  apply Rplus_le_lt_0_compat.
  - apply np_sum_nonneg. intros r _. apply Rle_0_sqr.
  - apply (np_sum_pos _ _ i).
    + intros k Hk. apply in_seq in Hk.
      pose proof (Hfloor k ltac:(lia)).
      pose proof (Rle_0_sqr (nth k x 0)) as Hs. unfold Rsqr in Hs. nra.
    + apply in_seq. lia.
    + pose proof (Hfloor i Hlt).
      assert (0 < nth i x 0 * nth i x 0).
      { pose proof (Rsqr_pos_lt _ Hi) as Hs. exact Hs. }
      nra.
Qed.

(** X8: for the model that [fit] returns, [get_covariance] returns an
    array that is positive definite, with every diagonal entry at least
    [SMALL]. *)
Theorem covariance_positive_definite {L : LinAlg} (self : FactorAnalysis)
        (X : matrix) (w : rng_world) :
  svd_shapes L -> wf_matrix X ->
  fit_outcome (fit self X w) = Returned tt ->
  exists C,
    fst (get_covariance (fit_self (fit self X w))) = Returned C /\
    positive_definite C /\
    (forall i, (i < ncols X)%nat -> SMALL <= entry C i i).
Proof.
  intros Hsvd HX Hret.
  pose proof (returned_reaches_loop self X w Hret) as Hreach.
  destruct (fit_returns_shapes Hsvd self X HX w Hreach Hret)
    as (k & (mu & W_ & psi_ & Hmu & HW & Hpsi & Hlmu & Hk & Hn & Hwf & Hlpsi)
        & _).
  pose proof (fit_stored_psi_floor self X w psi_ Hreach Hret Hpsi) as Hfloor.
  exists (cov_of W_ psi_).
  split; [unfold get_covariance; rewrite HW, Hpsi; reflexivity|].
  split; [apply cov_of_positive_definite; [exact Hfloor|congruence]|].
  intros i Hi. rewrite cov_of_entry by (rewrite Hn; exact Hi).
  rewrite Nat.eqb_refl.
  assert (0 <= gram W_ i i).
  { unfold gram. apply np_sum_nonneg. intros r _. nra. }
  assert (SMALL <= nth i psi_ 0).
  { apply (proj1 (Forall_forall _ _) Hfloor). apply nth_In. lia. }
  lra.
Qed.

Lemma covariance_positive_definite_witness :
  exists C,
    fst (get_covariance
           (fit_self (fit (L := column_library) fa_lapack X_col4 world0)))
    = Returned C /\
    positive_definite C /\
    (forall i, (i < ncols X_col4)%nat -> SMALL <= entry C i i).
Proof.
  destruct col4_default_run as (r0 & r1 & _ & _ & Hret & _).
  apply (covariance_positive_definite (L := column_library) fa_lapack X_col4
           world0 column_library_shapes wf_X_col4 Hret).
Defined.

(** ** A model without factors *)

Lemma psi_update_no_rows (var : vector) (W_ : matrix) :
  rows W_ = [] -> length var = ncols W_ ->
  psi_update var W_ = np_maximum var SMALL.
Proof.
  intros Hr Hv. unfold psi_update, col_sum, msquare. cbn [rows ncols].
  rewrite Hr. cbn [map fold_right].
  rewrite vmap2_minus_zeros by exact Hv. reflexivity.
Qed.

(** X9: with [n_components = 0] a returning [fit] gives a pure noise
    model: [components_] has no rows (and [n_features] columns),
    [noise_variance_] is the variance of each feature floored at [SMALL],
    and [get_covariance] is the diagonal array of these values. *)
Theorem fit_without_factors {L : LinAlg} (self : FactorAnalysis)
        (X : matrix) (w : rng_world) :
  svd_shapes L -> wf_matrix X -> n_components self = Some 0%nat ->
  fit_outcome (fit self X w) = Returned tt ->
  exists W_ C,
    components_ (fit_self (fit self X w)) = Some W_ /\
    rows W_ = [] /\ ncols W_ = ncols X /\
    noise_variance_ (fit_self (fit self X w))
    = Some (np_maximum (np_var (centred X)) SMALL) /\
    fst (get_covariance (fit_self (fit self X w))) = Returned C /\
    (forall i j, (i < ncols X)%nat -> (j < ncols X)%nat ->
       entry C i j
       = if Nat.eqb i j then Rmax (nth i (np_var (centred X)) 0) SMALL
         else 0).
Proof.
  intros Hsvd HX Hk Hret.
  destruct (fit_stored_from_trace self X w Hret)
    as (rl & rp & Hrl & Hrp & HW & Hpsi).
  assert (Hk0 : n_components_of self X = 0%nat).
  { unfold n_components_of. rewrite Hk. reflexivity. }
  assert (Hshape : forall r, In r (fit_trace (fit self X w)) ->
            rows (it_W r) = [] /\ ncols (it_W r) = ncols X).
  { intros r Hr.
    destruct (executed_iteration_shapes self X w r Hsvd HX Hr)
      as (_ & _ & _ & Hc & Hn).
    split; [|exact Hc].
    rewrite Hk0 in Hn. specialize (Hn ltac:(lia)).
    unfold nrows in Hn. destruct (rows (it_W r)); [reflexivity|discriminate]. }
  destruct (Hshape rl Hrl) as (Hrows & Hcols).
  destruct (Hshape rp Hrp) as (Hrowsp & Hcolsp).
  assert (Hvar : length (np_var (centred X)) = ncols X).
  { rewrite length_np_var by (apply wf_centred, HX). reflexivity. }
  rewrite psi_update_no_rows in Hpsi by congruence.
  exists (it_W rl), (cov_of (it_W rl) (np_maximum (np_var (centred X)) SMALL)).
  split; [exact HW|]. split; [exact Hrows|]. split; [exact Hcols|].
  split; [exact Hpsi|].
  split; [unfold get_covariance; rewrite HW, Hpsi; reflexivity|].
  intros i j Hi Hj. rewrite cov_of_entry by (rewrite Hcols; assumption).
  unfold gram. rewrite Hrows. cbn [map]. rewrite np_sum_nil.
  destruct (Nat.eqb i j); [|lra].
  unfold np_maximum.
  rewrite (nth_map_lt _ (np_var (centred X)) i 0 0) by (rewrite Hvar; exact Hi).
  lra.
Qed.

Lemma fit_without_factors_witness :
  exists W_ C,
    components_ (fit_self (fit (L := column_library) fa_no_factor X_col4
                               world0)) = Some W_ /\
    rows W_ = [] /\ ncols W_ = ncols X_col4 /\
    noise_variance_ (fit_self (fit (L := column_library) fa_no_factor X_col4
                                   world0))
    = Some (np_maximum (np_var (centred X_col4)) SMALL) /\
    fst (get_covariance
           (fit_self (fit (L := column_library) fa_no_factor X_col4 world0)))
    = Returned C /\
    (forall i j, (i < ncols X_col4)%nat -> (j < ncols X_col4)%nat ->
       entry C i j
       = if Nat.eqb i j then Rmax (nth i (np_var (centred X_col4)) 0) SMALL
         else 0).
Proof.
  apply (fit_without_factors (L := column_library) fa_no_factor X_col4 world0
           column_library_shapes wf_X_col4 eq_refl).
  rewrite (fit_reached_outcome (L := column_library) fa_no_factor X_col4
             world0 (reaches_loop_no_init fa_no_factor X_col4 eq_refl eq_refl)).
  reflexivity.
Defined.

(** ** [transform] works row by row *)

(** X10: [transform] works row by row: on an array made of two blocks
    of samples it returns the results for the two blocks, one above the
    other, with one row per sample. *)
Theorem transform_stacks {L : LinAlg} (self : FactorAnalysis) (n : nat)
        (r1 r2 : list vector) (W_ : matrix) (mu psi_ : vector) :
  components_ self = Some W_ -> mean_ self = Some mu ->
  noise_variance_ self = Some psi_ ->
  exists Z1 Z2,
    fst (fst (transform self (mkMatrix n r1))) = Returned Z1 /\
    fst (fst (transform self (mkMatrix n r2))) = Returned Z2 /\
    fst (fst (transform self (mkMatrix n (r1 ++ r2))))
    = Returned (mkMatrix (ncols Z1) (rows Z1 ++ rows Z2)) /\
    ncols Z2 = ncols Z1 /\
    nrows Z1 = length r1 /\ nrows Z2 = length r2.
Proof.
  intros HW Hmu Hpsi. unfold transform. rewrite HW, Hmu, Hpsi. cbv zeta.
  eexists. eexists. split; [reflexivity|]. split; [reflexivity|].
  cbn [fst]. split; [|split; [|split]].
  - f_equal. unfold np_dot, row_op. cbn [rows ncols].
    rewrite !map_app. reflexivity.
  - reflexivity.
  - unfold np_dot, row_op, nrows. cbn [rows ncols].
    rewrite !length_map. reflexivity.
  - unfold np_dot, row_op, nrows. cbn [rows ncols].
    rewrite !length_map. reflexivity.
Qed.

Lemma transform_stacks_witness :
  exists Z1 Z2,
    fst (fst (transform (L := column_library) fa_fitted
                (mkMatrix 2 [[1; 2]]))) = Returned Z1 /\
    fst (fst (transform (L := column_library) fa_fitted
                (mkMatrix 2 [[5; 7]]))) = Returned Z2 /\
    fst (fst (transform (L := column_library) fa_fitted
                (mkMatrix 2 ([[1; 2]] ++ [[5; 7]]))))
    = Returned (mkMatrix (ncols Z1) (rows Z1 ++ rows Z2)) /\
    ncols Z2 = ncols Z1 /\
    nrows Z1 = length [[1; 2]] /\ nrows Z2 = length [[5; 7]].
Proof.
  apply (transform_stacks (L := column_library) fa_fitted 2 [[1; 2]] [[5; 7]]
           (mkMatrix 2 [[3; 4]]) [1; 2] [1; 2]); reflexivity.
Defined.

(** ** A sample equal to the mean *)

Lemma np_dot1_zero_l (u v : vector) :
  Forall (fun x => x = 0) u -> np_dot1 u v = 0.
Proof.
  unfold np_dot1, vmap2. revert v.
  induction u as [|a u IH]; intros v Hu; [reflexivity|].
  destruct v as [|b v]; [reflexivity|].
  inversion Hu as [|? ? Ha Hu']; subst.
  cbn [combine map fst snd]. rewrite np_sum_cons, IH by exact Hu'. lra.
Qed.

Lemma vmap2_minus_self (u : vector) :
  Forall (fun x => x = 0) (vmap2 Rminus u u).
Proof.
  unfold vmap2. induction u as [|a u IH]; [constructor|].
  cbn [combine map fst snd]. constructor; [lra|exact IH].
Qed.

Lemma dot_row_of_zeros (u : vector) (B : matrix) :
  Forall (fun x => x = 0) u ->
  map (fun j => np_dot1 u (col B j)) (seq 0 (ncols B)) = repeat 0 (ncols B).
Proof.
  intros Hu. generalize (ncols B) at 1 2. intros m. generalize 0%nat.
  induction m as [|m IH]; intros s; [reflexivity|].
  cbn [seq map repeat]. rewrite np_dot1_zero_l by exact Hu. rewrite IH.
  reflexivity.
Qed.

Lemma Forall_repeat_zero (m : nat) : Forall (fun x => x = 0) (repeat 0 m).
Proof. induction m; constructor; [reflexivity|assumption]. Qed.

Lemma nth_error_np_dot (A B : matrix) (i : nat) (a : vector) :
  nth_error (rows A) i = Some a ->
  nth_error (rows (np_dot A B)) i
  = Some (map (fun j => np_dot1 a (col B j)) (seq 0 (ncols B))).
Proof.
  intros H. unfold np_dot. cbn [rows]. rewrite nth_error_map, H. reflexivity.
Qed.

Lemma nth_error_row_op (f : R -> R -> R) (M : matrix) (v : vector) (i : nat)
      (a : vector) :
  nth_error (rows M) i = Some a ->
  nth_error (rows (row_op f M v)) i = Some (vmap2 f a v).
Proof.
  intros H. unfold row_op. cbn [rows]. rewrite nth_error_map, H. reflexivity.
Qed.

(** X11: a sample equal to [mean_] is sent by [transform] to the zero
    vector of latent variables, whatever [components_], [noise_variance_]
    and the inverse routine are. *)
Theorem transform_of_mean_row {L : LinAlg} (self : FactorAnalysis)
        (X : matrix) (W_ : matrix) (mu psi_ : vector) (i : nat) :
  components_ self = Some W_ -> mean_ self = Some mu ->
  noise_variance_ self = Some psi_ ->
  nth_error (rows X) i = Some mu ->
  exists Z,
    transform self X = (Returned Z, self, X) /\
    nrows Z = nrows X /\
    nth_error (rows Z) i = Some (repeat 0 (ncols Z)).
Proof.
  intros HW Hmu Hpsi Hrow. unfold transform. rewrite HW, Hmu, Hpsi. cbv zeta.
  eexists. split; [reflexivity|].
  split; [rewrite nrows_np_dot, nrows_np_dot, nrows_row_op; reflexivity|].
  pose proof (nth_error_row_op Rminus X mu i mu Hrow) as H1.
  pose proof (nth_error_np_dot _ (np_T (row_op Rdiv W_ psi_)) i _ H1) as H2.
  etransitivity; [apply nth_error_np_dot; exact H2|].
  apply f_equal.
  rewrite (dot_row_of_zeros (vmap2 Rminus mu mu)
             (np_T (row_op Rdiv W_ psi_)) (vmap2_minus_self mu)).
  match goal with
  | |- _ = repeat 0 (ncols (np_dot ?a ?b)) =>
      change (ncols (np_dot a b)) with (ncols b);
      apply (dot_row_of_zeros _ b)
  end.
  apply Forall_repeat_zero.
Qed.

Lemma transform_of_mean_row_witness :
  exists Z,
    transform (L := column_library) fa_fitted X_1x2
    = (Returned Z, fa_fitted, X_1x2) /\
    nrows Z = nrows X_1x2 /\
    nth_error (rows Z) 0 = Some (repeat 0 (ncols Z)).
Proof.
  apply (transform_of_mean_row (L := column_library) fa_fitted X_1x2
           (mkMatrix 2 [[3; 4]]) [1; 2] [1; 2] 0); reflexivity.
Defined.

(** ** The constructor, and what [fit] can still refuse *)



(** ** A call of [fit] that raises *)

(** X13: a call of [fit] that raises has still overwritten [mean_] with
    the column means of the data, and has left [components_],
    [noise_variance_] and [loglike_] as they were.  On an estimator that had
    no [components_], [transform], [get_covariance] and [score] then raise
    [AttributeError] for [components_], and [score] does not set
    [precision_]. *)
Theorem failed_fit_state {L : LinAlg} (fast_logdet : matrix -> R)
        (self : FactorAnalysis) (X : matrix) (w : rng_world) (e : exn) :
  fit_outcome (fit self X w) = Raised e ->
  let self' := fit_self (fit self X w) in
  mean_ self' = Some (np_mean X) /\
  components_ self' = components_ self /\
  noise_variance_ self' = noise_variance_ self /\
  loglike_ self' = loglike_ self /\
  (components_ self = None ->
   forall Y precision_,
     fst (fst (transform self' Y)) = Raised (AttributeError "components_") /\
     fst (get_covariance self') = Raised (AttributeError "components_") /\
     fst (fst (fst (score fast_logdet self' precision_ Y)))
     = Raised (AttributeError "components_") /\
     snd (fst (score fast_logdet self' precision_ Y)) = precision_).
Proof.
  cbn zeta. intros He.
  assert (Hs : fit_self (fit self X w) = set_mean_ self (np_mean X)).
  { revert He. unfold fit. cbv zeta.
    assert (Hfin : forall (G : Type) s0 X0 w' (res : em_state G * bool),
              fit_outcome (fit_finish s0 X0 w' res) = Raised e ->
              fit_self (fit_finish s0 X0 w' res) = s0).
    { intros G s0 X0 w' res. unfold fit_finish.
      destruct (W (fst res)); [discriminate|reflexivity]. }
    destruct (noise_variance_init self) as [init|];
      [destruct (negb (Nat.eqb (length init) (ncols X))); [reflexivity|]|];
      (destruct (String.eqb (svd_method self) "lapack");
       [apply Hfin|destruct (String.eqb (svd_method self) "randomized");
                   [apply Hfin|reflexivity]]). }
  rewrite Hs. cbn [set_mean_ mean_ components_ noise_variance_ loglike_].
  do 4 (split; [reflexivity|]).
  intros Hc Y precision_.
  unfold transform, get_covariance, score, get_covariance.
  cbn [set_mean_ mean_ components_ noise_variance_ loglike_].
  rewrite Hc. repeat split.
Qed.

Lemma failed_fit_state_witness :
  let self' := fit_self (fit (L := column_library) fa_init3 X_2x5 world0) in
  mean_ self' = Some (np_mean X_2x5) /\
  components_ self' = components_ fa_init3 /\
  noise_variance_ self' = noise_variance_ fa_init3 /\
  loglike_ self' = loglike_ fa_init3.
Proof.
  destruct (failed_fit_state (L := column_library) (fun _ => 0) fa_init3 X_2x5
              world0 (ValueError (InitDimension 3 5)) eq_refl)
    as (H1 & H2 & H3 & H4 & _).
  cbn zeta. repeat split; assumption.
Defined.

(** ** The value of [score] *)

Lemma length_row_dots (A B : matrix) :
  nrows A = nrows B -> length (row_dots A B) = nrows A.
Proof.
  unfold row_dots, nrows. intros H.
  rewrite length_map, length_combine, <- H. apply Nat.min_id.
Qed.

Lemma nth_row_dots (A B : matrix) (i : nat) :
  (i < nrows A)%nat -> (i < nrows B)%nat ->
  nth i (row_dots A B) 0 = np_dot1 (nth i (rows A) []) (nth i (rows B) []).
Proof.
  intros HA HB. unfold row_dots.
  rewrite (nth_map_combine (A := vector) (B := vector) (C := R) _
             (rows A) (rows B) i [] [] 0 HA HB).
  reflexivity.
Qed.

Lemma column_library_inv_shapes : inv_shapes column_library.
Proof.
  intros M HM Hsq. cbn [linalg_inv column_library].
  unfold nrows, wf_matrix in *. cbn [rows ncols].
  rewrite length_map. split; [reflexivity|]. split; [reflexivity|].
  apply Forall_map. eapply Forall_impl; [|exact HM].
  cbn. intros r Hr. rewrite length_map. exact Hr.
Qed.

(** X14: on a model of the announced shapes and data of [n] features,
    [score] returns one value per sample: minus one half of the sum over
    [g] of [(X[i,g] - mean_[g])] times the sum over [f] of
    [(X[i,f] - mean_[f]) * P[f,g]], less one half of
    [fast_logdet(cov) + n * log(2 pi)], where [cov] is the array of
    [get_covariance] and [P] its inverse.  It stores [P] in [precision_] and
    leaves the model and the data unchanged. *)
Theorem score_value {L : LinAlg} (fast_logdet : matrix -> R)
        (self : FactorAnalysis) (precision_ : option matrix)
        (X : matrix) (k n : nat) :
  inv_shapes L -> fitted_shapes self k n ->
  wf_matrix X -> ncols X = n ->
  exists mu W_ psi_ s,
    mean_ self = Some mu /\ components_ self = Some W_ /\
    noise_variance_ self = Some psi_ /\
    score fast_logdet self precision_ X
    = (Returned s, self, Some (linalg_inv (cov_of W_ psi_)), X) /\
    length s = nrows X /\
    (forall i, (i < nrows X)%nat ->
       nth i s 0 =
       - 0.5 * np_sum (map (fun g =>
                   (entry X i g - nth g mu 0)
                   * np_sum (map (fun f =>
                                    (entry X i f - nth f mu 0)
                                    * entry (linalg_inv (cov_of W_ psi_)) f g)
                                 (seq 0 n)))
                 (seq 0 n))
       - 0.5 * (fast_logdet (cov_of W_ psi_) + INR n * ln (2 * PI))).
Proof.
  intros Hinv (mu & W_ & psi_ & Hmu & HW & Hpsi & Hlmu & Hk & Hn & Hwf & Hlpsi)
         HX HnX.
  exists mu, W_, psi_.
  destruct (cov_of_shape W_ psi_) as (Hcr & Hcc & Hcwf).
  destruct (Hinv (cov_of W_ psi_) Hcwf ltac:(congruence))
    as (HPr & HPc & HPwf).
  set (P := linalg_inv (cov_of W_ psi_)) in *.
  set (Xr := row_op Rminus X mu).
  assert (HXr : wf_matrix Xr) by (apply wf_row_op; [exact HX|congruence]).
  assert (HXrn : nrows Xr = nrows X) by apply nrows_row_op.
  assert (HXrc : ncols Xr = n) by exact HnX.
  assert (HD : nrows (np_dot Xr P) = nrows X)
    by (rewrite nrows_np_dot; exact HXrn).
  eexists. split; [exact Hmu|]. split; [exact HW|]. split; [exact Hpsi|].
  split.
  { unfold score. rewrite Hmu. unfold get_covariance. rewrite HW, Hpsi.
    cbn [fst]. rewrite HnX. reflexivity. }
  split.
  { rewrite !length_map. fold Xr. fold (cov_of W_ psi_). fold P.
    rewrite length_row_dots by congruence. exact HXrn. }
  intros i Hi. fold Xr. fold (cov_of W_ psi_). fold P.
  assert (Hlen : length (row_dots Xr (np_dot Xr P)) = nrows X).
  { rewrite length_row_dots by congruence. exact HXrn. }
  rewrite (nth_map_lt _ _ i 0 0) by (rewrite length_map, Hlen; exact Hi).
  rewrite (nth_map_lt _ _ i 0 0) by (rewrite Hlen; exact Hi).
  rewrite nth_row_dots by congruence.
  assert (Hri : length (nth i (rows Xr) []) = n).
  { rewrite (row_length Xr i HXr) by congruence. exact HXrc. }
  assert (Hdi : length (nth i (rows (np_dot Xr P)) []) = n).
  { rewrite (row_length _ i (wf_np_dot Xr P)) by congruence.
    cbn [np_dot ncols]. congruence. }
  rewrite (np_dot1_seq _ _ n Hri Hdi).
  assert (Hentry : forall g, (g < n)%nat ->
            nth g (nth i (rows Xr) []) 0 = entry X i g - nth g mu 0).
  { intros g Hg.
    change (nth g (nth i (rows Xr) []) 0) with (entry Xr i g).
    unfold Xr. apply entry_row_op; congruence. }
  f_equal. f_equal.
  apply np_sum_ext. intros g Hg. apply in_seq in Hg.
  rewrite Hentry by lia. f_equal.
  change (nth g (nth i (rows (np_dot Xr P)) []) 0)
    with (entry (np_dot Xr P) i g).
  rewrite entry_np_dot by (first [congruence|rewrite HPc, Hcc, Hn; lia]).
  assert (Hcol : length (col P g) = n).
  { unfold col. rewrite length_map. change (nrows P = n).
    rewrite HPr, Hcr. exact Hn. }
  rewrite (np_dot1_seq _ _ n Hri Hcol).
  apply np_sum_ext. intros f Hf. apply in_seq in Hf.
  rewrite Hentry by lia. rewrite nth_col by (rewrite HPr, Hcr, Hn; lia).
  reflexivity.
Qed.

Lemma score_value_witness :
  exists s,
    fst (fst (fst (score (L := column_library) (fun C => ln (entry C 0 0))
                     (fit_self (fit (L := column_library) fa_lapack X_col4
                                    world0))
                     None X_col4))) = Returned s /\
    length s = nrows X_col4.
Proof.
  destruct col4_default_run as (r0 & r1 & _ & _ & Hret & _).
  destruct (fit_returns_shapes column_library_shapes fa_lapack X_col4
              wf_X_col4 world0 (reaches_loop_lapack _) Hret)
    as (k & Hshape & _).
  destruct (score_value (L := column_library) (fun C => ln (entry C 0 0))
              (fit_self (fit (L := column_library) fa_lapack X_col4 world0))
              None X_col4 k 1 column_library_inv_shapes Hshape wf_X_col4
              eq_refl)
    as (mu & W_ & psi_ & s & _ & _ & _ & Hs & Hl & _).
  exists s. rewrite Hs. split; [reflexivity|exact Hl].
Defined.

(** ** Components below the noise level *)

Lemma vmap2_mult_zero_row (v sp : vector) :
  Forall (fun x => x = 0) (vmap2 Rmult (map (Rmult 0) v) sp).
Proof.
  unfold vmap2. revert sp.
  induction v as [|x v IH]; intros sp; [constructor|].
  destruct sp as [|q sp]; [constructor|].
  cbn [map combine fst snd]. constructor; [lra|apply IH].
Qed.

Lemma loading_row_zero (s : vector) (V : matrix) (sp : vector) (a : nat) :
  let W_ := row_op Rmult
              (scale_rows (map (fun x => sqrt (Rmax (x - 1) 0))
                               (map (fun x => x * x) s)) V) sp in
  (a < nrows W_)%nat -> nth a s 0 * nth a s 0 <= 1 ->
  Forall (fun x => x = 0) (nth a (rows W_) []).
Proof.
  cbn zeta. unfold nrows, row_op, scale_rows. cbn [rows ncols].
  rewrite !length_map, length_combine, !length_map.
  intros Ha Hs.
  rewrite nth_rows_map
    by (rewrite length_map, length_combine, !length_map; exact Ha).
  assert (Ha1 : (a < length s)%nat) by lia.
  assert (Ha2 : (a < length (rows V))%nat) by lia.
  rewrite (nth_map_combine (A := R) (B := list R) (C := list R) _ _ _ a 0 [] [])
    by (first [exact Ha2|rewrite !length_map; exact Ha1]).
  cbn [fst snd].
  rewrite (nth_map_lt _ _ a 0 0) by (rewrite length_map; lia).
  rewrite (nth_map_lt _ _ a 0 0) by lia.
  rewrite Rmax_right by lra. rewrite sqrt_0.
  apply vmap2_mult_zero_row.
Qed.

(** X15: a component whose squared singular value in the last
    iteration is at most 1 has a row of zeros in [components_]. *)
Theorem weak_component_zero_loadings {L : LinAlg} (self : FactorAnalysis)
        (X : matrix) (w : rng_world) (rec : iteration) (a : nat) :
  last_iteration (fit_trace (fit self X w)) = Some rec ->
  (a < nrows (it_W rec))%nat ->
  nth a (it_s rec) 0 * nth a (it_s rec) 0 <= 1 ->
  exists W_,
    components_ (fit_self (fit self X w)) = Some W_ /\
    (a < nrows W_)%nat /\
    Forall (fun x => x = 0) (nth a (rows W_) []).
Proof.
  intros Hl Ha Hs. pose proof (last_iteration_In _ _ Hl) as Hin.
  pose proof (executed_reaches_loop self X w rec Hin) as Hreach.
  pose proof (fit_run self X w Hreach) as (Hok & _ & _ & _ & Hlast).
  rewrite Hl in Hlast. destruct Hlast as (_ & Hself & _).
  exists (it_W rec). split; [rewrite Hself; reflexivity|].
  split; [exact Ha|].
  pose proof (proj1 (Forall_forall _ _) Hok rec Hin) as (_ & _ & _ & H4 & _).
  rewrite H4 in Ha |- *. apply loading_row_zero; assumption.
Qed.

(** A single sample of two features: the centred array is zero, and so is
    the singular value. *)
Lemma single_sample_iteration :
  exists r0,
    fit_trace (fit (L := column_library) fa_one_iteration X_1x2 world0)
    = [r0] /\
    it_s r0 = [0] /\ nrows (it_W r0) = 1%nat.
Proof.
  pose proof (fit_run (L := column_library) fa_one_iteration X_1x2 world0
                (reaches_loop_no_init fa_one_iteration X_1x2 eq_refl eq_refl))
    as (Hok & Hch & Hlen & _ & Hlast).
  destruct (fit_trace (fit fa_one_iteration X_1x2 world0)) as [|r0 t].
  { cbn [last_iteration] in Hlast. destruct Hlast as (Hn & _).
    discriminate Hn. }
  destruct t as [|r1 t]; [|cbn in Hlen; lia].
  destruct Hch as (Hp & Ho & _).
  exists r0. split; [reflexivity|].
  inversion Hok as [|? ? (H1 & H2 & H3 & H4 & H5) _]; subst.
  change (it_psi r0 = [1; 1]) in Hp.
  rewrite Hp in H1. cbn [map] in H1. rewrite H1 in H2.
  unfold fit_decomp in H3.
  change (my_svd_lapack (L := column_library) 2 (it_input r0) tt
          = (it_s r0, it_V r0, it_unexp_var r0, tt)) in H3.
  rewrite H2 in H3. unfold my_svd_lapack in H3.
  change (@linalg_svd column_library
            (row_op Rdiv (centred X_1x2)
                    (map (fun q => q * sqrt (INR (nrows X_1x2)))
                         [sqrt 1 + SMALL; sqrt 1 + SMALL])))
    with (repeat 0 1, mkMatrix 2 (firstn 1 (rows (np_eye 2)))) in H3.
  injection H3 as Hs3 HV3 _.
  split; [rewrite <- Hs3; reflexivity|].
  rewrite H4, <- Hs3, <- HV3. reflexivity.
Qed.

Lemma weak_component_zero_loadings_witness :
  exists W_,
    components_ (fit_self (fit (L := column_library) fa_one_iteration X_1x2
                               world0)) = Some W_ /\
    (0 < nrows W_)%nat /\
    Forall (fun x => x = 0) (nth 0 (rows W_) []).
Proof.
  destruct single_sample_iteration as (r0 & Ht & Hs & Hn).
  apply (weak_component_zero_loadings (L := column_library) fa_one_iteration
           X_1x2 world0 r0 0).
  - rewrite Ht. reflexivity.
  - rewrite Hn. lia.
  - rewrite Hs. cbn [nth]. lra.
Defined.
